(** * SEA-256 keyed mixing hash and its statistical harness

    A shallow embedding of [src/sea.ts] (the hash core) and of the
    [HashTester] class of [src/hashTester.ts] (the harness), with the
    properties of the specification stated and proved over it.

    JavaScript numbers are IEEE-754 doubles.  Every number the hash core
    manipulates is an integer, so a number is modelled as an element of [Z]
    and the rounding of the double arithmetic is written out ([JS.fl]).
    The 32-bit conversions of the bitwise operators ([ToInt32], [ToUint32])
    are written out as well. *)

From Stdlib Require Import ZArith QArith Qround Lia List Bool Strings.Byte Ascii Wellfounded.
From stdpp Require Import base list gmap.
From Equations Require Import Equations.
Import ListNotations.

Local Open Scope Z_scope.

(** ** JavaScript number semantics on integers *)

Module JS.

(** [x >>> 0] on an integer-valued number: reduction modulo 2^32. *)
Definition ToUint32 (x : Z) : Z := x mod 2 ^ 32.

(** The signed reading of the same 32 bits. *)
Definition ToInt32 (x : Z) : Z := (x + 2 ^ 31) mod 2 ^ 32 - 2 ^ 31.

(** Round-half-even of [m / 2^e] to an integer, for [m >= 0]. *)
Definition round_half_even (m e : Z) : Z :=
  let q := m / 2 ^ e in
  let r := m mod 2 ^ e in
  let half := 2 ^ (e - 1) in
  if r <? half then q
  else if half <? r then q + 1
  else if Z.even q then q else q + 1.

(** The double nearest to the integer [x] (ties to even): integers below
    2^53 in magnitude are exact, larger ones keep 53 significant bits.
    (Overflow to infinity, beyond 2^1024, is out of reach of the code.) *)
Definition fl (x : Z) : Z :=
  let a := Z.abs x in
  if a <? 2 ^ 53 then x
  else
    let e := Z.log2 a - 52 in
    Z.sgn x * (round_half_even a e * 2 ^ e).

(** [a + b], [a - b], [a * b] on doubles holding integers: the exact
    result, rounded once. *)
Definition add (a b : Z) : Z := fl (a + b).
Definition sub (a b : Z) : Z := fl (a - b).
Definition mul (a b : Z) : Z := fl (a * b).

(** [a ^ b], [a & b], [a | b]: operands through [ToInt32], signed result. *)
Definition xor (a b : Z) : Z := Z.lxor (ToInt32 a) (ToInt32 b).
Definition and (a b : Z) : Z := Z.land (ToInt32 a) (ToInt32 b).
Definition or (a b : Z) : Z := Z.lor (ToInt32 a) (ToInt32 b).

(** Shift counts are taken modulo 32. *)
Definition shiftCount (n : Z) : Z := ToUint32 n mod 32.

(** [a << n]: signed result. *)
Definition shl (a n : Z) : Z := ToInt32 (Z.shiftl (ToInt32 a) (shiftCount n)).
(** [a >> n]: sign-propagating. *)
Definition shr (a n : Z) : Z := Z.shiftr (ToInt32 a) (shiftCount n).
(** [a >>> n]: zero-filling, unsigned result. *)
Definition ushr (a n : Z) : Z := Z.shiftr (ToUint32 a) (shiftCount n).

(** What a read yields where a number is expected by a bitwise operator
    or by [|| 0]: [undefined] (an out-of-range index) counts as 0. *)
Definition orZero (o : option Z) : Z := default 0 o.

(** [i % n] on non-negative integers; [None] is NaN (division by zero). *)
Definition rem (i n : nat) : option nat :=
  if (n =? 0)%nat then None else Some (i mod n)%nat.

End JS.

(** ** Typed arrays *)

(** The value of a byte as a number. *)
Definition byte_val (b : byte) : Z := Z.of_N (Byte.to_N b).

(** A store into a [Uint8Array] (or [Buffer]) cell keeps the low 8 bits. *)
Definition ToUint8 (x : Z) : byte :=
  byte_of_ascii (ascii_of_N (Z.to_N (x mod 256))).

Abbreviation Buffer := (list byte) (only parsing).

(** [buf[i]] as a number, [None] for [undefined]. *)
Definition buf_get (buf : Buffer) (i : nat) : option Z := byte_val <$> buf !! i.

(** [buf[i] = x]: out of range stores are dropped. *)
Definition buf_set (buf : Buffer) (i : nat) (x : Z) : Buffer :=
  <[i := ToUint8 x]> buf.

(** A [Uint32Array]: every store goes through [ToUint32]. *)
Abbreviation Uint32Array := (list Z) (only parsing).

Definition u32_set (a : Uint32Array) (i : nat) (x : Z) : Uint32Array :=
  <[i := JS.ToUint32 x]> a.

(** ** Loops *)

(** [for (let i = start; i < start + count; i++) acc = body(i, acc)] *)
Fixpoint for_loop {A : Type} (body : nat -> A -> A) (i count : nat) (acc : A) : A :=
  match count with
  | O => acc
  | S count' => for_loop body (S i) count' (body i acc)
  end.

(** [l.forEach((v, idx) => ...)] with the effect of the callback on [s],
    [idx] counting from its first argument. *)
Fixpoint forEach {A S : Type} (callback : A -> nat -> S -> S) (l : list A) (idx : nat)
    (s : S) : S :=
  match l with
  | [] => s
  | v :: l' => forEach callback l' (Datatypes.S idx) (callback v idx s)
  end.

(** ** The hash core, [src/sea.ts] *)

Module Sea.

Record NlConstants := {
  scale : Z;
  grow : Z;
  flip : Z;
  collapse : Z
}.

Record Config := {
  initialValues : Uint32Array;
  rotLeftAmount : Z;
  rotRightAmount : Z;
  nlConstants : NlConstants;
  nlShift : Z;
  roundsPerByte : Z
}.

(** [Math.floor(Math.sqrt(n))] for an integer [n] below 2^52 that is not
    a perfect square: the real root lies at least [1 / (2 m)] below the
    next integer [m], the correctly rounded double of it stays below [m]
    (doubles near [m <= 2^26] are [2^-27] apart or closer), so the floor
    is the integer square root. *)
Definition floor_sqrt (n : Z) : Z := Z.sqrt n.

(** [Math.floor(3.86e26 % 0xffffffff) >>> 0]: the literal denotes the
    double nearest to 386 * 10^24, and [%] on doubles is exact. *)
Definition sunLuminosity : Z :=
  JS.ushr (Z.rem (JS.fl (386 * 10 ^ 24)) 0xffffffff) 0.

(** [Math.floor(Math.sqrt(4.5682 * 4_568_200_000)) >>> 0]: the product
    is 20868451240 up to the rounding of the literal and of the product
    (a relative error below 2^-51), and the integer root is the same for
    every real within 40000 of that value. *)
Definition earthDistance : Z := JS.ushr (floor_sqrt (45682 * 456820)) 0.

Definition config : Config := {|
  initialValues :=
    map JS.ToUint32
      [ 696342;
        sunLuminosity;
        earthDistance;
        floor_sqrt 1156377600000;
        floor_sqrt 9460730472;
        floor_sqrt 4294967231;
        floor_sqrt 4294967279;
        floor_sqrt 4294967291 ];
  rotLeftAmount := 5;
  rotRightAmount := 3;
  nlConstants := {|
    scale := 0xb7e15162;
    grow := 0x9e3779b9;
    flip := 0x7f4a7c15;
    collapse := 0x243f6a88
  |};
  nlShift := 7;
  roundsPerByte := 3
|}.

Definition wrap32 (x : Z) : Z := JS.ushr x 0.

Definition rotL (x n : Z) : Z :=
  JS.ushr (JS.or (JS.shl x n) (JS.ushr x (JS.sub 32 n))) 0.

Definition rotR (x n : Z) : Z :=
  JS.ushr (JS.or (JS.ushr x n) (JS.shl x (JS.sub 32 n))) 0.

Definition zetaValue (alpha beta : Z) : Z :=
  JS.add (JS.xor alpha beta) (JS.and alpha beta).

Definition gammaValue (alpha beta u : Z) : Z :=
  let '{| scale := scale; grow := grow; flip := flip; collapse := collapse |}
    := nlConstants config in
  let z := wrap32 (JS.shl (JS.mul scale (zetaValue alpha beta)) 3) in
  let z := JS.ushr (JS.add z (JS.mul u grow)) 0 in
  let z := rotL (JS.xor z flip) (nlShift config) in
  let z := wrap32 (JS.and z collapse) in
  z.

Definition hashByte (b u : Z) : Z :=
  let alpha := rotL (JS.xor b u) (rotLeftAmount config) in
  let beta := rotR (wrap32 (JS.add b u)) (rotRightAmount config) in
  let gamma := gammaValue alpha beta u in
  wrap32 (JS.add (JS.add alpha beta) gamma).

Definition roundMix (b u : Z) : Z :=
  let val := b in
  for_loop (fun _ val => hashByte val u) 0 (Z.to_nat (roundsPerByte config)) val.

(** [args[0]] of an empty array is [undefined]; the state never is empty,
    and the model reads 0 there. *)
Definition entangle (u : Z) (args : Uint32Array) : Z :=
  let prev := JS.orZero (args !! 0%nat) in
  for_loop
    (fun i prev => roundMix (wrap32 (JS.add prev (JS.orZero (args !! i)))) u)
    1 (length args - 1) prev.

(** [b[i % b.length] || 0] *)
Definition shiftValue (b : Buffer) (i : nat) : Z :=
  JS.orZero (JS.rem i (length b) ≫= buf_get b).

(** The body of [for (const u of bytes)]: the state array and the
    counter [i] before and after. *)
Definition absorb (key : Buffer) (st : Uint32Array * nat) (u : byte)
  : Uint32Array * nat :=
  let '(state, i) := st in
  let k := shiftValue key i in
  let state :=
    for_loop
      (fun j state => u32_set state j (JS.add (entangle (byte_val u) state) k))
      0 (length state) state in
  (state, S i).

(** The state after the loop over the input. *)
Definition finalState (bytes key : Buffer) : Uint32Array :=
  let state := initialValues config in
  let i := 1%nat in
  fst (foldl (absorb key) (state, i) bytes).

(** The callback of [state.forEach]: four stores into [rb]. *)
Definition write_word (v : Z) (idx : nat) (rb : Buffer) : Buffer :=
  let offset := (idx * 4)%nat in
  let rb := buf_set rb offset (JS.and (JS.shr v 24) 0xff) in
  let rb := buf_set rb (offset + 1) (JS.and (JS.shr v 16) 0xff) in
  let rb := buf_set rb (offset + 2) (JS.and (JS.shr v 8) 0xff) in
  let rb := buf_set rb (offset + 3) (JS.and v 0xff) in
  rb.

Definition sea256Raw (bytes key : Buffer) : Buffer :=
  let state := finalState bytes key in
  let rb := replicate (length state * 4) "000"%byte in
  forEach write_word state 0 rb.

End Sea.

(** ** Facts about the number model *)

Section NumberFacts.

Lemma ToUint32_range x : 0 <= JS.ToUint32 x < 2 ^ 32.
Proof. unfold JS.ToUint32. apply Z.mod_pos_bound. lia. Qed.

Lemma ToUint32_small x : 0 <= x < 2 ^ 32 -> JS.ToUint32 x = x.
Proof. intros H. unfold JS.ToUint32. apply Z.mod_small. exact H. Qed.

Lemma ToUint32_mod x : JS.ToUint32 x = x mod 2 ^ 32.
Proof. reflexivity. Qed.

Lemma ToUint32_mul_l x y : JS.ToUint32 (JS.ToUint32 x * y) = JS.ToUint32 (x * y).
Proof. unfold JS.ToUint32. apply Z.mul_mod_idemp_l. lia. Qed.

Lemma ToUint32_idemp x : JS.ToUint32 (JS.ToUint32 x) = JS.ToUint32 x.
Proof. apply ToUint32_small, ToUint32_range. Qed.

Lemma ToInt32_range x : - 2 ^ 31 <= JS.ToInt32 x < 2 ^ 31.
Proof.
  unfold JS.ToInt32.
  pose proof (Z.mod_pos_bound (x + 2 ^ 31) (2 ^ 32)). lia.
Qed.

Lemma ToInt32_small x : - 2 ^ 31 <= x < 2 ^ 31 -> JS.ToInt32 x = x.
Proof. intros H. unfold JS.ToInt32. rewrite Z.mod_small; lia. Qed.

(** [ToInt32] and [ToUint32] read the same 32 bits. *)
Lemma ToUint32_ToInt32 x : JS.ToUint32 (JS.ToInt32 x) = JS.ToUint32 x.
Proof.
  unfold JS.ToUint32, JS.ToInt32.
  rewrite Zminus_mod_idemp_l.
  f_equal. lia.
Qed.

Lemma fl_small x : Z.abs x < 2 ^ 53 -> JS.fl x = x.
Proof.
  intros H. unfold JS.fl.
  destruct (Z.ltb_spec (Z.abs x) (2 ^ 53)); [reflexivity | lia].
Qed.

Lemma round_half_even_near m e :
  0 <= m -> 0 < e ->
  (JS.round_half_even m e = m / 2 ^ e \/ JS.round_half_even m e = m / 2 ^ e + 1) /\
  2 * Z.abs (JS.round_half_even m e * 2 ^ e - m) <= 2 ^ e.
Proof.
  intros Hm He. unfold JS.round_half_even.
  assert (Hp : 0 < 2 ^ e) by (apply Z.pow_pos_nonneg; lia).
  assert (Hh : 2 ^ e = 2 * 2 ^ (e - 1)).
  { rewrite <- Z.pow_succ_r by lia. f_equal. lia. }
  pose proof (Z.div_mod m (2 ^ e) ltac:(lia)) as Hdm.
  pose proof (Z.mod_pos_bound m (2 ^ e) Hp) as Hr.
  set (q := m / 2 ^ e) in *. set (r := m mod 2 ^ e) in *.
  set (h := 2 ^ (e - 1)) in *.
  destruct (Z.ltb_spec r h); [split; [left; reflexivity | nia] |].
  destruct (Z.ltb_spec h r); [split; [right; reflexivity | nia] |].
  destruct (Z.even q); split; try (left; reflexivity); try (right; reflexivity); nia.
Qed.

(** [fl x] is a number with a significand of at most 53 bits at the
    exponent of [x], and no such number is nearer to [x]. *)
Lemma fl_nearest x :
  let e := Z.max 0 (Z.log2 (Z.abs x) - 52) in
  exists m, Z.abs m <= 2 ^ 53 /\ JS.fl x = m * 2 ^ e /\
            2 * Z.abs (JS.fl x - x) <= 2 ^ e.
Proof.
  unfold JS.fl.
  destruct (Z.ltb_spec (Z.abs x) (2 ^ 53)) as [Hs | Hb].
  - assert (Z.log2 (Z.abs x) <= 52).
    { destruct (Z.eq_dec (Z.abs x) 0) as [-> | Hne]; [cbn; lia |].
      assert (Z.log2 (Z.abs x) < 53); [apply Z.log2_lt_pow2; lia | lia]. }
    rewrite Z.max_l by lia. cbn zeta.
    exists x. rewrite Z.sub_diag. cbn. lia.
  - set (a := Z.abs x) in *. set (e := Z.log2 a - 52).
    assert (Ha : 0 < a) by lia.
    pose proof (Z.log2_spec a Ha) as [Hlo Hhi].
    assert (He : 0 < e).
    { unfold e. assert (53 <= Z.log2 a); [| lia].
      apply Z.log2_le_pow2; lia. }
    rewrite Z.max_r by lia. cbn zeta.
    assert (Hp : 0 < 2 ^ e) by (apply Z.pow_pos_nonneg; lia).
    assert (Hpow : 2 ^ Z.succ (Z.log2 a) = 2 ^ 53 * 2 ^ e).
    { rewrite <- Z.pow_add_r by lia. f_equal. unfold e. lia. }
    destruct (round_half_even_near a e ltac:(lia) He) as [Hq Hnear].
    assert (Hq53 : a / 2 ^ e < 2 ^ 53).
    { apply Z.div_lt_upper_bound; [exact Hp |]. lia. }
    assert (Hq0 : 0 <= a / 2 ^ e) by (apply Z.div_pos; lia).
    set (R := JS.round_half_even a e) in *.
    exists (Z.sgn x * R).
    split; [| split; [ring |]].
    + rewrite Z.abs_mul.
      assert (Z.abs (Z.sgn x) <= 1) by (destruct x; cbn; lia).
      assert (0 <= R <= 2 ^ 53) by (destruct Hq as [-> | ->]; lia).
      rewrite (Z.abs_eq R) by lia. nia.
    + unfold a in *. destruct x as [| p | p]; cbn [Z.sgn Z.abs] in *; [lia | |].
      * rewrite Z.mul_1_l. exact Hnear.
      * replace (-1 * (R * 2 ^ e) - Z.neg p) with (- (R * 2 ^ e - Z.pos p)) by lia.
        rewrite Z.abs_opp. exact Hnear.
Qed.

(** The literal [3.86e26] and a product of two 32-bit numbers. *)
Example fl_literal : JS.fl (386 * 10 ^ 24) = 386000000000000013925089280.
Proof. vm_compute. reflexivity. Qed.

Example fl_product : JS.mul 0xb7e15162 0x7fffffff = 6624980526939680768.
Proof. vm_compute. reflexivity. Qed.

Lemma add_exact a b : Z.abs (a + b) < 2 ^ 53 -> JS.add a b = a + b.
Proof. apply fl_small. Qed.

Lemma shiftCount_small n : 0 <= n < 32 -> JS.shiftCount n = n.
Proof.
  intros H. unfold JS.shiftCount.
  rewrite ToUint32_small by lia. apply Z.mod_small. exact H.
Qed.

Lemma ushr_0 x : JS.ushr x 0 = JS.ToUint32 x.
Proof. unfold JS.ushr. rewrite shiftCount_small by lia. apply Z.shiftr_0_r. Qed.

Lemma testbit_ToUint32 x i :
  Z.testbit (JS.ToUint32 x) i = (i <? 32) && Z.testbit x i.
Proof. unfold JS.ToUint32. apply Z.testbit_mod_pow2. lia. Qed.

Lemma testbit_ToInt32 x i :
  0 <= i < 32 -> Z.testbit (JS.ToInt32 x) i = Z.testbit x i.
Proof.
  intros Hi.
  assert (E : Z.testbit (JS.ToUint32 (JS.ToInt32 x)) i = Z.testbit (JS.ToUint32 x) i)
    by (rewrite ToUint32_ToInt32; reflexivity).
  rewrite !testbit_ToUint32 in E.
  destruct (Z.ltb_spec i 32); [exact E | lia].
Qed.

Lemma ToUint32_lxor a b :
  JS.ToUint32 (Z.lxor a b) = Z.lxor (JS.ToUint32 a) (JS.ToUint32 b).
Proof.
  apply Z.bits_inj'. intros i Hi.
  rewrite Z.lxor_spec, !testbit_ToUint32, Z.lxor_spec.
  destruct (i <? 32); reflexivity.
Qed.

Lemma ToUint32_land a b :
  JS.ToUint32 (Z.land a b) = Z.land (JS.ToUint32 a) (JS.ToUint32 b).
Proof.
  apply Z.bits_inj'. intros i Hi.
  rewrite Z.land_spec, !testbit_ToUint32, Z.land_spec.
  destruct (i <? 32), (Z.testbit a i), (Z.testbit b i); reflexivity.
Qed.

Lemma ToUint32_lor a b :
  JS.ToUint32 (Z.lor a b) = Z.lor (JS.ToUint32 a) (JS.ToUint32 b).
Proof.
  apply Z.bits_inj'. intros i Hi.
  rewrite Z.lor_spec, !testbit_ToUint32, Z.lor_spec.
  destruct (i <? 32), (Z.testbit a i), (Z.testbit b i); reflexivity.
Qed.

(** The unsigned reading of the bitwise operators. *)
Lemma ToUint32_xor a b :
  JS.ToUint32 (JS.xor a b) = Z.lxor (JS.ToUint32 a) (JS.ToUint32 b).
Proof. unfold JS.xor. rewrite ToUint32_lxor, !ToUint32_ToInt32. reflexivity. Qed.

Lemma ToUint32_and a b :
  JS.ToUint32 (JS.and a b) = Z.land (JS.ToUint32 a) (JS.ToUint32 b).
Proof. unfold JS.and. rewrite ToUint32_land, !ToUint32_ToInt32. reflexivity. Qed.

Lemma ToUint32_or a b :
  JS.ToUint32 (JS.or a b) = Z.lor (JS.ToUint32 a) (JS.ToUint32 b).
Proof. unfold JS.or. rewrite ToUint32_lor, !ToUint32_ToInt32. reflexivity. Qed.

Lemma ToUint32_shl a n :
  0 <= n < 32 -> JS.ToUint32 (JS.shl a n) = (JS.ToUint32 a * 2 ^ n) mod 2 ^ 32.
Proof.
  intros Hn. unfold JS.shl.
  rewrite ToUint32_ToInt32, shiftCount_small by exact Hn.
  rewrite Z.shiftl_mul_pow2 by lia.
  unfold JS.ToUint32 at 1.
  rewrite <- Z.mul_mod_idemp_l by lia.
  change (JS.ToInt32 a mod 2 ^ 32) with (JS.ToUint32 (JS.ToInt32 a)).
  rewrite ToUint32_ToInt32. reflexivity.
Qed.

Lemma ushr_div a n :
  0 <= n < 32 -> JS.ushr a n = JS.ToUint32 a / 2 ^ n.
Proof.
  intros Hn. unfold JS.ushr.
  rewrite shiftCount_small by exact Hn.
  apply Z.shiftr_div_pow2. lia.
Qed.

Lemma ushr_range a n : 0 <= n < 32 -> 0 <= JS.ushr a n < 2 ^ 32.
Proof.
  intros Hn. rewrite ushr_div by exact Hn.
  pose proof (ToUint32_range a) as Ha.
  split.
  - apply Z.div_pos; [lia | apply Z.pow_pos_nonneg; lia].
  - apply Z.div_lt_upper_bound; [apply Z.pow_pos_nonneg; lia |].
    assert (0 < 2 ^ n) by (apply Z.pow_pos_nonneg; lia). nia.
Qed.

(** Bit [i] of a signed 32-bit reading: bits from 31 up repeat the sign. *)
Lemma testbit_ToInt32_sign x i :
  0 <= i -> Z.testbit (JS.ToInt32 x) i = Z.testbit x (Z.min i 31).
Proof.
  intros Hi.
  destruct (Z.lt_ge_cases i 32) as [Hlt | Hge].
  - rewrite testbit_ToInt32 by lia.
    destruct (Z.le_gt_cases i 31); [rewrite Z.min_l by lia; reflexivity | lia].
  - rewrite Z.min_r by lia.
    rewrite <- (testbit_ToInt32 x 31) by lia.
    pose proof (ToInt32_range x) as Hr.
    set (y := JS.ToInt32 x) in *.
    destruct (Z.lt_ge_cases y 0) as [Hneg | Hpos].
    + assert (Hlog : Z.log2 (Z.pred (- y)) < 31).
      { destruct (Z.eq_dec (Z.pred (- y)) 0) as [-> | Hne]; [cbn; lia |].
        apply Z.log2_lt_pow2; lia. }
      rewrite !Z.bits_above_log2_neg by lia. reflexivity.
    + destruct (Z.eq_dec y 0) as [-> | Hne]; [rewrite !Z.bits_0; reflexivity |].
      assert (Hlog : Z.log2 y < 31) by (apply Z.log2_lt_pow2; lia).
      rewrite !Z.bits_above_log2 by lia. reflexivity.
Qed.

Lemma ToInt32_lxor a b :
  JS.ToInt32 (Z.lxor a b) = Z.lxor (JS.ToInt32 a) (JS.ToInt32 b).
Proof.
  apply Z.bits_inj'. intros i Hi.
  rewrite Z.lxor_spec, !testbit_ToInt32_sign, Z.lxor_spec by exact Hi.
  reflexivity.
Qed.

Lemma ToInt32_land a b :
  JS.ToInt32 (Z.land a b) = Z.land (JS.ToInt32 a) (JS.ToInt32 b).
Proof.
  apply Z.bits_inj'. intros i Hi.
  rewrite Z.land_spec, !testbit_ToInt32_sign, Z.land_spec by exact Hi.
  reflexivity.
Qed.

Lemma ToInt32_idemp x : JS.ToInt32 (JS.ToInt32 x) = JS.ToInt32 x.
Proof. apply ToInt32_small, ToInt32_range. Qed.

Lemma xor_signed a b : JS.xor a b = JS.ToInt32 (Z.lxor a b).
Proof. unfold JS.xor. rewrite ToInt32_lxor. reflexivity. Qed.

Lemma and_signed a b : JS.and a b = JS.ToInt32 (Z.land a b).
Proof. unfold JS.and. rewrite ToInt32_land. reflexivity. Qed.

End NumberFacts.

(** ** The harness, class [HashTester] of [src/hashTester.ts] *)

(** A JavaScript string: its sequence of UTF-16 code units. *)
Abbreviation JSString := (list Z) (only parsing).

(** The Node.js runtime the harness calls into. *)
Class Runtime := {
  (** [Buffer.from(s, "utf8")] *)
  utf8Encode : JSString -> Buffer;
  (** [buf.toString("utf8")] *)
  utf8Decode : Buffer -> JSString;
  (** [Buffer.from(s, "hex")] *)
  hexDecode : JSString -> Buffer;
  (** The double nearest to a real number (the rounding of [/]). *)
  roundDouble : Q -> Q;
  (** The state of the system generator behind [crypto.randomBytes]. *)
  rng : Type;
  randomBytes : nat -> rng -> Buffer * rng
}.

Section PopcountTermination.

Lemma ToUint32_zero_int32 y :
  - 2 ^ 31 <= y < 2 ^ 31 -> JS.ToUint32 y = 0 -> y = 0.
Proof.
  unfold JS.ToUint32.
  change (2 ^ 31) with 2147483648. change (2 ^ 32) with 4294967296.
  intros Hr E. Z.div_mod_to_equations. lia.
Qed.

Lemma ToUint32_pred x :
  JS.ToUint32 x <> 0 -> JS.ToUint32 (x - 1) = JS.ToUint32 x - 1.
Proof.
  unfold JS.ToUint32. change (2 ^ 32) with 4294967296.
  intros Hx. Z.div_mod_to_equations. lia.
Qed.

Lemma land_pred_lt X : 0 < X -> Z.land X (X - 1) < X.
Proof.
  intros HX.
  rewrite <- (Z2N.id X) at 1 by lia. rewrite <- (Z2N.id (X - 1)) by lia.
  rewrite <- N2Z.inj_land.
  pose proof (N.land_le_r (Z.to_N X) (Z.to_N (X - 1))). lia.
Qed.

End PopcountTermination.

Module HashTester.

(** The two private fields of the class. *)
Record t := {
  hashFn : JSString -> JSString -> JSString;
  testingKey : JSString
}.

(** *** Bit counting *)

(** [xor &= xor - 1]: clears the lowest set bit. *)
Definition clearLowest (xor : Z) : Z := JS.and xor (JS.sub xor 1).

(** What decreases along [while (xor)]: the unsigned reading of [xor]; a
    number outside the signed 32-bit range enters that range after one
    iteration. *)
Definition popMeasure (x : Z) : N :=
  if x =? 0 then 0%N
  else if (- 2 ^ 31 <=? x) && (x <? 2 ^ 31) then N.succ (Z.to_N (JS.ToUint32 x))
  else (2 ^ 32 + 2)%N.

Lemma clearLowest_decreases x :
  x <> 0 -> (popMeasure (clearLowest x) < popMeasure x)%N.
Proof.
  intros Hx. unfold clearLowest.
  rewrite and_signed. set (y := JS.ToInt32 _).
  pose proof (ToInt32_range (Z.land x (JS.sub x 1))) as Hr. fold y in Hr.
  pose proof (ToUint32_range y) as Hy32.
  pose proof (ToUint32_range x) as Hx32.
  unfold popMeasure.
  destruct (Z.eqb_spec x 0) as [| _]; [lia |].
  destruct (Z.eqb_spec y 0) as [| Hy].
  { destruct (_ && _); lia. }
  destruct (Z.leb_spec (- 2 ^ 31) y); [| lia].
  destruct (Z.ltb_spec y (2 ^ 31)); [| lia]. cbn [andb].
  destruct (Z.leb_spec (- 2 ^ 31) x); cbn [andb]; [| lia].
  destruct (Z.ltb_spec x (2 ^ 31)); [| lia].
  assert (Hsub : JS.sub x 1 = x - 1) by (apply fl_small; lia).
  assert (Hx0 : JS.ToUint32 x <> 0).
  { intros E. apply Hx. apply ToUint32_zero_int32; [lia | exact E]. }
  assert (Ey : JS.ToUint32 y = Z.land (JS.ToUint32 x) (JS.ToUint32 x - 1)).
  { unfold y. rewrite ToUint32_ToInt32, ToUint32_land, Hsub, ToUint32_pred by exact Hx0.
    reflexivity. }
  pose proof (land_pred_lt (JS.ToUint32 x)). lia.
Qed.

(** The loop runs at most 33 times; 64 unfoldings of the accessibility
    proof let it compute. *)
#[local] Instance wf_N_lt : WellFounded N.lt := Acc_intro_generator 6 N.lt_wf_0.

(** [while (xor) { dist++; xor &= xor - 1; }], returning [dist]. *)
Equations? popcount_loop (xor dist : Z) : Z by wf (popMeasure xor) N.lt :=
  popcount_loop xor dist with Z.eq_dec xor 0 => {
    | left _ := dist;
    | right _ := popcount_loop (clearLowest xor) (dist + 1) }.
Proof. apply clearLowest_decreases. assumption. Qed.

(** *** Static methods, on the decoded buffers *)

(** [hammingDistance] after the two [Buffer.from(.., "hex")]: [i] runs
    over the indices of [buf1]; a read past the end of [buf2] is
    [undefined], which [^] takes for 0. *)
Definition hammingDistance_bytes (buf1 buf2 : Buffer) : Z :=
  let dist := 0 in
  for_loop
    (fun i dist =>
       let xor := JS.xor (JS.orZero (buf_get buf1 i)) (JS.orZero (buf_get buf2 i)) in
       popcount_loop xor dist)
    0 (length buf1) dist.

(** [bitDiff] after the two [Buffer.from(.., "hex")]. *)
Definition bitDiff_bytes (a b : Buffer) : Z :=
  let maxLen := Nat.max (length a) (length b) in
  let dist := 0 in
  for_loop
    (fun i dist =>
       let ai := if (i <? length a)%nat then JS.orZero (buf_get a i) else 0 in
       let bi := if (i <? length b)%nat then JS.orZero (buf_get b i) else 0 in
       let xor := JS.xor ai bi in
       popcount_loop xor dist)
    0 maxLen dist.

(** [{ found: true, candidate, tries }] and [{ found: false, tries }]. *)
Inductive PreimageResult :=
| Found (candidate : JSString) (tries : nat)
| NotFound (tries : nat).

(** [{ avg, bits }]; [avg] is [None] when the quotient is not a finite
    number. *)
Record AvalancheResult := { avg : option Q; bits : list Z }.

(** [{ collisions, iterations }] *)
Record CollisionResult := { collisions : nat; iterations : nat }.

Section Methods.

Context `{Runtime}.

Definition hammingDistance (hex1 hex2 : JSString) : Z :=
  let buf1 := hexDecode hex1 in
  let buf2 := hexDecode hex2 in
  hammingDistance_bytes buf1 buf2.

Definition bitDiff (hexA hexB : JSString) : Z :=
  let a := hexDecode hexA in
  let b := hexDecode hexB in
  bitDiff_bytes a b.

(** [bitPos] is [None] when the caller's [i % 0] is NaN: the index is
    then NaN as well and the store is dropped. *)
Definition flipBit (input : JSString) (bitPos : option nat) : JSString :=
  let buf := utf8Encode input in
  match bitPos with
  | None => utf8Decode buf
  | Some bitPos =>
      let byteIndex := (bitPos / 8)%nat in
      let bitIndex := (bitPos mod 8)%nat in
      let buf :=
        buf_set buf byteIndex
          (JS.xor (JS.orZero (buf_get buf byteIndex)) (JS.shl 1 (Z.of_nat bitIndex))) in
      utf8Decode buf
  end.

(** [a / b] on doubles; [None] stands for a result that is not a finite
    number (a zero divisor). *)
Definition fdiv (a b : Q) : option Q :=
  if Qeq_bool b 0 then None else Some (roundDouble (a / b)).

Variable this : t.

(** [Math.random], with the state of its generator, which is not the one
    of [crypto.randomBytes]. *)
Context {prng : Type} (mathRandom : prng -> Q * prng).

(** The bit position [Math.floor] hands to [flipBit]: a negative one, like
    NaN, addresses no byte. *)
Definition bitPosition (pos : Z) : option nat :=
  if pos <? 0 then None else Some (Z.to_nat pos).

(** The generator state is threaded through the trials; [total] is a
    small integer, kept exact; [distances.push (dist)] appends. *)
Definition avalanche (input : JSString) (flips : nat) (s : prng)
  : AvalancheResult * prng :=
  let originalHash := hashFn this input (testingKey this) in
  let total := 0 in
  let distances := [] in
  let '(total, distances, s) :=
    for_loop
      (fun i '(total, distances, s) =>
         let '(r, s) := mathRandom s in
         let pos :=
           Qfloor (roundDouble (r * inject_Z (Z.of_nat (length input * 8)))) in
         let flipped := flipBit input (bitPosition pos) in
         let newHash := hashFn this flipped (testingKey this) in
         let dist := hammingDistance originalHash newHash in
         (total + dist, distances ++ [dist], s))
      0 flips (total, distances, s) in
  ({| avg := fdiv (inject_Z total) (inject_Z (Z.of_nat flips));
      bits := distances |}, s).

(** The counters of [diffusion] are small integers, kept exact. *)
Definition diffusion (input : JSString) (flips : nat) : option Q :=
  let originalHash := hashFn this input (testingKey this) in
  let hashBits := (length (hexDecode originalHash) * 8)%nat in
  let totalDiffBits := 0 in
  let totalDiffBits :=
    for_loop
      (fun i totalDiffBits =>
         let flipped := flipBit input (JS.rem i (length input * 8)) in
         let newHash := hashFn this flipped (testingKey this) in
         totalDiffBits + bitDiff originalHash newHash)
      0 flips totalDiffBits in
  avgDiffBits ← fdiv (inject_Z totalDiffBits) (inject_Z (Z.of_nat flips));
  fdiv avgDiffBits (inject_Z (Z.of_nat hashBits)).

(** The loop of [preimage]: [Some] is a [return] from inside the loop.
    The state threaded through is the generator and the list of the
    inputs handed to the hash function so far, latest first. *)
Fixpoint preimage_loop (output : JSString) (inputLength : nat) (i todo : nat)
    (g : rng) (hashed : list JSString)
  : option PreimageResult * rng * list JSString :=
  match todo with
  | O => (None, g, hashed)
  | S todo' =>
      let '(bytes, g) := randomBytes inputLength g in
      let candidate := utf8Decode bytes in
      let h := hashFn this candidate (testingKey this) in
      let hashed := candidate :: hashed in
      if decide (h = output)
      then (Some (Found candidate (i + 1)), g, hashed)
      else preimage_loop output inputLength (S i) todo' g hashed
  end.

Definition preimage (output : JSString) (inputLength attempts : nat) (g : rng)
  : PreimageResult * rng * list JSString :=
  let '(r, g, hashed) := preimage_loop output inputLength 0 attempts g [] in
  (default (NotFound attempts) r, g, hashed).

(** [buf.toString("hex")] *)
Variable hexEncode : Buffer -> JSString.

(** [seen] is a [Set] of strings. *)
Definition collision (iterations : nat) (g : rng) : CollisionResult * rng :=
  let seen : gset JSString := ∅ in
  let collisions := 0%nat in
  let '(seen, collisions, g) :=
    for_loop
      (fun i '(seen, collisions, g) =>
         let '(bytes, g) := randomBytes (16 / 2) g in
         let input := hexEncode bytes in
         let hash := hashFn this input (testingKey this) in
         if decide (hash ∈ seen)
         then (seen, S collisions, g)
         else ({[hash]} ∪ seen, collisions, g))
      0 iterations (seen, collisions, g) in
  ({| collisions := collisions; iterations := iterations |}, g).

End Methods.

End HashTester.

(** ** The non-linear step in closed form *)

Module SeaSpec.

Import Sea.

(** Circular left rotation of a 32-bit word by [0 < n < 32] places. *)
Definition rotl32 (x n : Z) : Z :=
  Z.lor ((x * 2 ^ n) mod 2 ^ 32) (x / 2 ^ (32 - n)).

(** The steps that follow the product [scale * zeta], all modulo 2^32. *)
Definition gamma_of_product (p u : Z) : Z :=
  let c := nlConstants config in
  let z := (p * 2 ^ 3) mod 2 ^ 32 in
  let z := (z + u * grow c) mod 2 ^ 32 in
  let z := rotl32 (Z.lxor z (flip c)) 7 in
  (Z.land z (collapse c)) mod 2 ^ 32.

(** [zeta] over unsigned words, as the specification writes it. *)
Definition zeta_exact (alpha beta : Z) : Z := Z.lxor alpha beta + Z.land alpha beta.

(** The non-linear step with every operation exact modulo 2^32. *)
Definition gamma_exact (alpha beta u : Z) : Z :=
  gamma_of_product (scale (nlConstants config) * zeta_exact alpha beta) u.

(** [zeta] as JavaScript computes it: [^] and [&] yield signed 32-bit
    integers, which are then added as numbers. *)
Definition zeta_signed (alpha beta : Z) : Z :=
  JS.ToInt32 (Z.lxor alpha beta) + JS.ToInt32 (Z.land alpha beta).

(** The non-linear step with the product rounded to a double. *)
Definition gamma_rounded (alpha beta u : Z) : Z :=
  gamma_of_product (JS.fl (scale (nlConstants config) * zeta_signed alpha beta)) u.

End SeaSpec.


(** ** The state, one input byte at a time *)

Module StateSpec.

Import Sea.

(** An unsigned 32-bit word. *)
Definition u32 (x : Z) : Prop := 0 <= x < 2 ^ 32.

(** [entangle] as a left fold: the first word seeds the accumulator, each
    later word [w] turns it into [roundMix (wrap32 (acc + w)) u]. *)
Definition entangle_fold (u : Z) (words : list Z) : Z :=
  match words with
  | [] => 0
  | w0 :: ws => foldl (fun acc w => roundMix ((acc + w) mod 2 ^ 32) u) w0 ws
  end.

(** The reading of the update with seven state words: words 0..6 are
    rewritten in order, each from a fold over the first seven words. *)
Definition pass_seven (u k : Z) (state : list Z) : list Z :=
  foldl (fun s j => <[j := (entangle_fold u (take 7 s) + k) mod 2 ^ 32]> s)
        state (seq 0 7).

(** Big-endian bytes of a 32-bit word. *)
Definition be32 (v : Z) : list Z :=
  [ (v / 2 ^ 24) mod 256; (v / 2 ^ 16) mod 256; (v / 2 ^ 8) mod 256; v mod 256 ].

(** The state after the input when the byte at (1-based) position [i] is
    mixed with the keystream value [ks i] instead of a key byte. *)
Definition finalState_keystream (ks : nat -> Z) (bytes : Buffer) : list Z :=
  fst (foldl
         (fun '(state, i) u =>
            (for_loop
               (fun j state =>
                  u32_set state j (JS.add (entangle (byte_val u) state) (ks i)))
               0 (length state) state,
             S i))
         (initialValues config, 1%nat) bytes).

End StateSpec.

(** ** Bit distances and candidate draws *)

Module HarnessSpec.

(** The number of set bits among the low 8 bits of [x]. *)
Definition popcount8 (x : Z) : Z :=
  foldr (fun i s => Z.b2z (Z.testbit x (Z.of_nat i)) + s) 0 (seq 0 8).

(** The number of bit positions in which two bytes differ. *)
Definition differing_bits (x y : byte) : Z :=
  popcount8 (Z.lxor (byte_val x) (byte_val y)).

(** The Hamming distance of two byte sequences, position by position. *)
Definition hamming (a b : list byte) : Z :=
  foldr Z.add 0 (zip_with differing_bits a b).

(** The differing bits of the bytes at index [j], a byte past the end of
    a buffer read as 0. *)
Definition bits_at (a b : list byte) (j : nat) : Z :=
  differing_bits (default "000"%byte (a !! j)) (default "000"%byte (b !! j)).

(** The differing bits over the first [n] positions. *)
Definition bits_upto (n : nat) (a b : list byte) : Z :=
  foldr (fun j s => bits_at a b j + s) 0 (seq 0 n).

(** [hammingDistance] as the specification words it: an explicit
    failure on sequences of unequal length. *)
Inductive Error := LengthMismatch.

Definition hammingDistance_checked (a b : list byte) : Error + Z :=
  if decide (length a = length b) then inr (hamming a b) else inl LengthMismatch.

Section Draws.

Context `{Runtime}.

(** The first [n] candidates [preimage] draws from the generator. *)
Fixpoint draws (inputLength n : nat) (g : rng) : list (list Z) :=
  match n with
  | O => []
  | S n' =>
      let '(bytes, g') := randomBytes inputLength g in
      utf8Decode bytes :: draws inputLength n' g'
  end.

(** The first [n] inputs [collision] draws from the generator: 8 random
    bytes each, written in hexadecimal by [hexEncode]. *)
Fixpoint hexDraws (hexEncode : list byte -> list Z) (n : nat) (g : rng)
  : list (list Z) :=
  match n with
  | O => []
  | S n' =>
      let '(bytes, g') := randomBytes 8 g in
      hexEncode bytes :: hexDraws hexEncode n' g'
  end.

(** The sum [diffusion] accumulates over its [flips] trials. *)
Definition diffusion_sum (this : HashTester.t) (input : list Z) (flips : nat) : Z :=
  foldr
    (fun i s =>
       HashTester.bitDiff
         (HashTester.hashFn this input (HashTester.testingKey this))
         (HashTester.hashFn this
            (HashTester.flipBit input (Some (i mod (length input * 8))%nat))
            (HashTester.testingKey this))
       + s)
    0 (seq 0 flips).

End Draws.

End HarnessSpec.

(** ** A runtime to evaluate the harness on *)

(** An instance of the runtime that is exact on ASCII strings and on
    their single-bit flips: UTF-8 encoding of code units below U+D800,
    decoding with every byte from 0x80 up replaced by U+FFFD, hexadecimal
    decoding up to the first pair that is not two digits, quotients kept
    exact, and a counter as random generator. *)
Module AsciiNode.

Definition encodeUnit (c : Z) : list byte :=
  if c <? 0x80 then [ToUint8 c]
  else if c <? 0x800 then [ToUint8 (0xC0 + c / 64); ToUint8 (0x80 + c mod 64)]
  else [ToUint8 (0xE0 + c / 4096); ToUint8 (0x80 + (c / 64) mod 64);
        ToUint8 (0x80 + c mod 64)].

Definition utf8Encode (s : list Z) : list byte := flat_map encodeUnit s.

Definition utf8Decode (buf : list byte) : list Z :=
  map (fun b => if byte_val b <? 0x80 then byte_val b else 0xFFFD) buf.

Definition hexValue (c : Z) : option Z :=
  if (48 <=? c) && (c <=? 57) then Some (c - 48)
  else if (97 <=? c) && (c <=? 102) then Some (c - 87)
  else if (65 <=? c) && (c <=? 70) then Some (c - 55)
  else None.

Fixpoint hexDecode (s : list Z) : list byte :=
  match s with
  | h :: l :: rest =>
      match hexValue h, hexValue l with
      | Some x, Some y => ToUint8 (16 * x + y) :: hexDecode rest
      | _, _ => []
      end
  | _ => []
  end.

Definition hexDigit (v : Z) : Z := if v <? 10 then 48 + v else 87 + v.

(** [buf.toString("hex")] *)
Definition hexEncode (buf : list byte) : list Z :=
  flat_map (fun b => [hexDigit (byte_val b / 16); hexDigit (byte_val b mod 16)]) buf.

(** [sea256(input, key, "hex")] of [src/sea.ts], as a hash function of
    the harness. *)
Definition sea256_hex (input key : list Z) : list Z :=
  hexEncode (Sea.sea256Raw (utf8Encode input) (utf8Encode key)).

(** The [g]-th draw of [n] bytes repeats the byte [g mod 256]. *)
Definition randomBytes (n : nat) (g : nat) : list byte * nat :=
  (replicate n (ToUint8 (Z.of_nat g)), S g).

Definition runtime : Runtime :=
  Build_Runtime utf8Encode utf8Decode hexDecode (fun q => q) nat randomBytes.

(** The string ["hello"]. *)
Definition hello : list Z := [104; 101; 108; 108; 111].

(** The harness over [sea256] with the default testing key ["test-key"]. *)
Definition tester : HashTester.t :=
  {| HashTester.hashFn := sea256_hex;
     HashTester.testingKey := [116; 101; 115; 116; 45; 107; 101; 121] |}.

End AsciiNode.

(** * Facts about the loops *)

Section LoopFacts.

Context {A : Type}.
Implicit Types (body : nat -> A -> A) (acc : A).

Lemma for_loop_0 body i acc : for_loop body i 0 acc = acc.
Proof. reflexivity. Qed.

Lemma for_loop_S body i n acc :
  for_loop body i (S n) acc = for_loop body (S i) n (body i acc).
Proof. reflexivity. Qed.

(** The last iteration, split off. *)
Lemma for_loop_snoc body i n acc :
  for_loop body i (S n) acc = body (i + n)%nat (for_loop body i n acc).
Proof.
  revert i acc. induction n as [| n IH]; intros i acc.
  - rewrite for_loop_S, !for_loop_0, Nat.add_0_r. reflexivity.
  - rewrite for_loop_S, IH, (for_loop_S body i n).
    replace (S i + n)%nat with (i + S n)%nat by lia. reflexivity.
Qed.

(** Loop invariants: [P j acc] relates the counter and the accumulator
    before iteration [j]. *)
Lemma for_loop_inv (P : nat -> A -> Prop) body i n acc :
  P i acc ->
  (forall j a, (i <= j < i + n)%nat -> P j a -> P (S j) (body j a)) ->
  P (i + n)%nat (for_loop body i n acc).
Proof.
  revert i acc. induction n as [| n IH]; intros i acc Hinit Hstep.
  - rewrite for_loop_0, Nat.add_0_r. exact Hinit.
  - rewrite for_loop_S. replace (i + S n)%nat with (S i + n)%nat by lia.
    apply IH.
    + apply Hstep; [lia | exact Hinit].
    + intros j a Hj. apply Hstep. lia.
Qed.

Lemma for_loop_ext body body' i n acc :
  (forall j a, (i <= j < i + n)%nat -> body j a = body' j a) ->
  for_loop body i n acc = for_loop body' i n acc.
Proof.
  revert i acc. induction n as [| n IH]; intros i acc Hext.
  - reflexivity.
  - rewrite !for_loop_S, Hext by lia. apply IH.
    intros j a Hj. apply Hext. lia.
Qed.

Lemma forEach_nil {S : Type} (callback : A -> nat -> S -> S) idx s :
  forEach callback [] idx s = s.
Proof. reflexivity. Qed.

Lemma forEach_cons {S : Type} (callback : A -> nat -> S -> S) v l idx s :
  forEach callback (v :: l) idx s = forEach callback l (Datatypes.S idx) (callback v idx s).
Proof. reflexivity. Qed.

End LoopFacts.

(** A counting loop that adds [g i] at step [i] sums [g] over its range. *)
Lemma for_loop_sum (body : nat -> Z -> Z) (g : nat -> Z) i n acc :
  (forall j a, (i <= j < i + n)%nat -> body j a = a + g j) ->
  for_loop body i n acc = acc + foldr (fun j s => g j + s) 0 (seq i n).
Proof.
  revert i acc. induction n as [| n IH]; intros i acc Hbody.
  - rewrite for_loop_0. cbn [seq foldr]. lia.
  - rewrite for_loop_S, IH, Hbody by (intros; try apply Hbody; lia).
    cbn [seq foldr]. lia.
Qed.
Section SeaFacts.

Lemma wrap32_ToUint32 x : Sea.wrap32 x = JS.ToUint32 x.
Proof. unfold Sea.wrap32. apply ushr_0. Qed.

Lemma wrap32_mod x : Sea.wrap32 x = x mod 2 ^ 32.
Proof. apply wrap32_ToUint32. Qed.

Lemma wrap32_range x : 0 <= Sea.wrap32 x < 2 ^ 32.
Proof. rewrite wrap32_mod. apply Z.mod_pos_bound. lia. Qed.

Lemma rotL_rotl32 x n :
  0 < n < 32 -> Sea.rotL x n = SeaSpec.rotl32 (JS.ToUint32 x) n.
Proof.
  intros Hn. unfold Sea.rotL, SeaSpec.rotl32, JS.sub.
  rewrite fl_small by lia.
  rewrite ushr_0, ToUint32_or, ToUint32_shl by lia.
  rewrite (ToUint32_small (JS.ushr _ _)) by (apply ushr_range; lia).
  rewrite ushr_div by lia. reflexivity.
Qed.

Lemma rotL_range x n : 0 <= Sea.rotL x n < 2 ^ 32.
Proof. unfold Sea.rotL. rewrite ushr_0. apply ToUint32_range. Qed.

Lemma rotR_range x n : 0 <= Sea.rotR x n < 2 ^ 32.
Proof. unfold Sea.rotR. rewrite ushr_0. apply ToUint32_range. Qed.

Lemma zetaValue_signed alpha beta :
  Sea.zetaValue alpha beta = SeaSpec.zeta_signed alpha beta.
Proof.
  unfold Sea.zetaValue, SeaSpec.zeta_signed, JS.add.
  rewrite xor_signed, and_signed.
  pose proof (ToInt32_range (Z.lxor alpha beta)).
  pose proof (ToInt32_range (Z.land alpha beta)).
  apply fl_small. lia.
Qed.

Lemma zeta_signed_exact alpha beta :
  JS.ToUint32 (SeaSpec.zeta_signed alpha beta)
  = JS.ToUint32 (SeaSpec.zeta_exact alpha beta).
Proof.
  unfold SeaSpec.zeta_signed, SeaSpec.zeta_exact, JS.ToUint32.
  rewrite Z.add_mod by lia.
  change (JS.ToInt32 (Z.lxor alpha beta) mod 2 ^ 32)
    with (JS.ToUint32 (JS.ToInt32 (Z.lxor alpha beta))).
  change (JS.ToInt32 (Z.land alpha beta) mod 2 ^ 32)
    with (JS.ToUint32 (JS.ToInt32 (Z.land alpha beta))).
  rewrite !ToUint32_ToInt32. unfold JS.ToUint32.
  rewrite <- Z.add_mod by lia. reflexivity.
Qed.

(** Only the low 32 bits of the product matter to the later steps. *)
Lemma gamma_of_product_mod p u :
  SeaSpec.gamma_of_product (p mod 2 ^ 32) u = SeaSpec.gamma_of_product p u.
Proof.
  unfold SeaSpec.gamma_of_product. cbv zeta.
  rewrite Z.mul_mod_idemp_l by lia. reflexivity.
Qed.

Lemma gammaValue_of_product alpha beta u :
  0 <= u < 256 ->
  Sea.gammaValue alpha beta u
  = SeaSpec.gamma_of_product
      (JS.mul (Sea.scale (Sea.nlConstants Sea.config)) (Sea.zetaValue alpha beta)) u.
Proof.
  intros Hu. unfold Sea.gammaValue, SeaSpec.gamma_of_product.
  cbn [Sea.nlConstants Sea.config Sea.scale Sea.grow Sea.flip Sea.collapse Sea.nlShift].
  generalize (JS.mul 3084996962 (Sea.zetaValue alpha beta)). intros p.
  rewrite !wrap32_ToUint32, !ushr_0.
  rewrite ToUint32_shl by lia.
  rewrite <- !(ToUint32_mod (_ * 2 ^ 3)), <- !(ToUint32_mod (_ + _)),
    <- !(ToUint32_mod (Z.land _ _)).
  rewrite ToUint32_mul_l.
  pose proof (ToUint32_range (p * 2 ^ 3)) as Hz1.
  generalize dependent (JS.ToUint32 (p * 2 ^ 3)). intros z1 Hz1.
  unfold JS.add, JS.mul.
  rewrite (fl_small (u * _)) by lia. rewrite fl_small by lia.
  pose proof (ToUint32_range (z1 + u * 2654435769)) as Hz2.
  generalize dependent (JS.ToUint32 (z1 + u * 2654435769)). intros z2 Hz2.
  rewrite rotL_rotl32 by lia.
  rewrite ToUint32_xor, (ToUint32_small z2), (ToUint32_small 2135587861) by lia.
  rewrite ToUint32_and, ToUint32_land. reflexivity.
Qed.

End SeaFacts.


(** * Facts about the state update *)

Section AbsorbFacts.

Import Sea StateSpec.

Lemma byte_val_range b : 0 <= byte_val b < 256.
Proof. unfold byte_val. pose proof (Byte.to_N_bounded b). lia. Qed.

Lemma hashByte_range b u : u32 (hashByte b u).
Proof. unfold hashByte. apply wrap32_range. Qed.

Lemma roundMix_range b u : u32 (roundMix b u).
Proof.
  unfold roundMix.
  change (Z.to_nat (roundsPerByte config)) with 3%nat.
  rewrite for_loop_snoc. apply hashByte_range.
Qed.

Lemma entangle_fold_range u words : Forall u32 words -> u32 (entangle_fold u words).
Proof.
  destruct words as [| w0 ws]; [intros _; unfold entangle_fold, u32; lia |].
  intros Hw. apply Forall_cons in Hw as [Hw0 _]. unfold entangle_fold.
  destruct ws as [| w ws _] using rev_ind; [exact Hw0 |].
  rewrite foldl_snoc. apply roundMix_range.
Qed.

(** [entangle] folds the words of the array from the first one on. *)
Lemma entangle_is_fold u args :
  Forall u32 args -> entangle u args = entangle_fold u args.
Proof.
  destruct args as [| w0 ws]; [reflexivity |].
  intros Hargs. apply Forall_cons in Hargs as [Hw0 Hws].
  unfold entangle, entangle_fold.
  change ((w0 :: ws) !! 0%nat) with (Some w0).
  change (JS.orZero (Some w0)) with w0.
  replace (length (w0 :: ws) - 1)%nat with (length ws) by (cbn [length]; lia).
  set (g := fun acc w => roundMix ((acc + w) mod 2 ^ 32) u).
  pose (P := fun (j : nat) (acc : Z) => u32 acc /\ acc = foldl g w0 (take (j - 1) ws)).
  assert (HP : P (1 + length ws)%nat
                 (for_loop (fun i prev =>
                      roundMix (wrap32 (JS.add prev (JS.orZero ((w0 :: ws) !! i)))) u)
                    1 (length ws) w0)).
  { apply for_loop_inv.
    - split; [exact Hw0 | reflexivity].
    - intros j acc Hj [Hacc ->].
      destruct (lookup_lt_is_Some_2 ws (j - 1)) as [w Hw]; [lia |].
      assert (Hwr : u32 w) by (eapply Forall_lookup_1; eassumption).
      assert (Hj' : (w0 :: ws) !! j = Some w).
      { destruct j as [| j]; [lia |]. rewrite lookup_cons.
        replace (S j - 1)%nat with j in Hw by lia. exact Hw. }
      rewrite Hj'. change (JS.orZero (Some w)) with w.
      rewrite add_exact by (unfold u32 in Hacc, Hwr; lia).
      rewrite wrap32_mod.
      split; [apply roundMix_range |].
      replace (S j - 1)%nat with (S (j - 1)) by lia.
      rewrite (take_S_r _ _ _ Hw), foldl_snoc. reflexivity. }
  destruct HP as [_ ->].
  replace (1 + length ws - 1)%nat with (length ws) by lia.
  rewrite firstn_all. reflexivity.
Qed.

Lemma u32_set_Forall a i x : Forall u32 a -> Forall u32 (u32_set a i x).
Proof.
  intros Ha. unfold u32_set. apply Forall_insert; [exact Ha |].
  apply ToUint32_range.
Qed.

(** The pass over the state for one input byte [u] with keystream value
    [k]: the length is kept, the words stay 32-bit, and word [m] of the
    new array is computed from the new words below [m] and the old words
    from [m] on (sequential read-after-write). *)
Lemma update_pass u k state :
  Forall u32 state -> 0 <= k < 256 ->
  let state' :=
    for_loop (fun j state => u32_set state j (JS.add (entangle u state) k))
      0 (length state) state in
  length state' = length state /\
  Forall u32 state' /\
  forall m, (m < length state)%nat ->
    state' !! m
    = Some ((entangle_fold u (take m state' ++ drop m state) + k) mod 2 ^ 32).
Proof.
  intros Hs Hk.
  pose (P := fun (j : nat) (s : list Z) =>
    length s = length state /\ Forall u32 s /\ drop j s = drop j state /\
    forall m, (m < j)%nat ->
      s !! m = Some ((entangle_fold u (take m s ++ drop m state) + k) mod 2 ^ 32)).
  assert (HP : P (0 + length state)%nat
                 (for_loop (fun j state => u32_set state j (JS.add (entangle u state) k))
                    0 (length state) state)).
  { apply for_loop_inv.
    - repeat split; [exact Hs | intros m Hm; lia].
    - intros j s Hj (Hlen & Hsu & Hdrop & Hlow).
      assert (Ev : JS.ToUint32 (JS.add (entangle u s) k)
                   = (entangle_fold u s + k) mod 2 ^ 32).
      { rewrite entangle_is_fold by exact Hsu.
        pose proof (entangle_fold_range u s Hsu) as Hr. unfold u32 in Hr.
        rewrite add_exact by lia. reflexivity. }
      unfold u32_set. rewrite Ev.
      set (v := (entangle_fold u s + k) mod 2 ^ 32).
      repeat split.
      + rewrite length_insert. exact Hlen.
      + apply Forall_insert; [exact Hsu |]. apply Z.mod_pos_bound. lia.
      + rewrite drop_insert_lt by lia.
        replace (S j) with (j + 1)%nat by lia.
        rewrite <- !drop_drop, Hdrop. reflexivity.
      + intros m Hm. destruct (decide (m = j)) as [-> | Hne].
        * rewrite list_lookup_insert_eq by lia.
          rewrite take_insert_ge by lia.
          rewrite <- Hdrop, take_drop. reflexivity.
        * rewrite list_lookup_insert_ne by lia.
          rewrite take_insert_ge by lia. apply Hlow. lia. }
  cbn zeta. cbn [Nat.add] in HP.
  destruct HP as (Hlen & Hsu & _ & Hlow).
  repeat split; [exact Hlen | exact Hsu |].
  intros m Hm. apply Hlow. exact Hm.
Qed.

(** The keystream value is the key byte at [i mod length], and 0 for the
    empty key. *)
Lemma shiftValue_lookup key i :
  shiftValue key i = default 0 (byte_val <$> key !! (i mod length key)%nat).
Proof.
  unfold shiftValue, JS.rem, JS.orZero, buf_get.
  destruct key as [| b key]; reflexivity.
Qed.

Lemma shiftValue_range key i : 0 <= shiftValue key i < 256.
Proof.
  rewrite shiftValue_lookup.
  destruct (key !! _) as [b |]; [apply byte_val_range | cbn; lia].
Qed.

Lemma initialValues_eq :
  initialValues config
  = [696342; 4010821885; 144459; 1075349; 97266; 65535; 65535; 65535].
Proof. vm_compute. reflexivity. Qed.

Lemma initialValues_u32 : Forall u32 (initialValues config).
Proof. rewrite initialValues_eq. repeat constructor; unfold u32; lia. Qed.

Lemma absorb_unfold key state i u :
  absorb key (state, i) u
  = (for_loop
       (fun j state =>
          u32_set state j (JS.add (entangle (byte_val u) state) (shiftValue key i)))
       0 (length state) state,
     S i).
Proof. reflexivity. Qed.

(** What the loop over the input maintains: eight 32-bit words, and a
    counter one ahead of the number of bytes consumed. *)
Lemma absorb_all_inv key bytes state i :
  Forall u32 state ->
  let st := foldl (absorb key) (state, i) bytes in
  length (fst st) = length state /\ Forall u32 (fst st)
  /\ snd st = (i + length bytes)%nat.
Proof.
  revert state i. induction bytes as [| u rest IH]; intros state i Hs.
  - cbn [foldl fst snd length]. repeat split; [exact Hs | lia].
  - cbn [foldl length]. rewrite absorb_unfold.
    destruct (update_pass (byte_val u) (shiftValue key i) state Hs
                (shiftValue_range key i)) as (Hlen & Hsu & _).
    destruct (IH _ (S i) Hsu) as (Hlen' & Hsu' & Hi).
    cbn zeta. rewrite Hlen', Hlen, Hi. repeat split; [exact Hsu' | lia].
Qed.

Lemma finalState_length bytes key : length (finalState bytes key) = 8%nat.
Proof.
  unfold finalState.
  destruct (absorb_all_inv key bytes (initialValues config) 1 initialValues_u32)
    as (Hlen & _). cbn zeta in Hlen. rewrite Hlen, initialValues_eq. reflexivity.
Qed.

Lemma finalState_u32 bytes key : Forall u32 (finalState bytes key).
Proof.
  unfold finalState.
  destruct (absorb_all_inv key bytes (initialValues config) 1 initialValues_u32)
    as (_ & Hsu & _). exact Hsu.
Qed.

(** Consuming one more byte [u] after [pre]: one pass at the 1-based
    position of [u]. *)
Lemma finalState_snoc pre u key :
  finalState (pre ++ [u]) key
  = fst (absorb key (finalState pre key, S (length pre)) u).
Proof.
  unfold finalState. cbn zeta. rewrite foldl_snoc.
  destruct (absorb_all_inv key pre (initialValues config) 1 initialValues_u32)
    as (_ & _ & Hi). cbn zeta in Hi.
  destruct (foldl (absorb key) (initialValues config, 1%nat) pre) as [s i].
  cbn [fst snd] in *. subst i. reflexivity.
Qed.

(** The hash depends on the key through the keystream only. *)
Lemma finalState_as_keystream bytes key :
  finalState bytes key = finalState_keystream (shiftValue key) bytes.
Proof.
  unfold finalState, finalState_keystream. cbn zeta.
  generalize (initialValues config, 1%nat).
  induction bytes as [| u rest IH]; intros st; [reflexivity |].
  cbn [foldl]. destruct st as [state i]. rewrite absorb_unfold. apply IH.
Qed.

Lemma finalState_keystream_ext ks ks' bytes :
  (forall i, ks i = ks' i) ->
  finalState_keystream ks bytes = finalState_keystream ks' bytes.
Proof.
  intros Hext. unfold finalState_keystream.
  generalize (initialValues config, 1%nat).
  induction bytes as [| u rest IH]; intros st; [reflexivity |].
  cbn [foldl]. destruct st as [state i]. rewrite Hext. apply IH.
Qed.

End AbsorbFacts.

(** * Facts about the serialization *)

Section SerializeFacts.

Import Sea StateSpec.

Lemma byte_val_ToUint8 x : byte_val (ToUint8 x) = x mod 256.
Proof.
  unfold byte_val, ToUint8.
  assert (Hr : 0 <= x mod 256 < 256) by (apply Z.mod_pos_bound; lia).
  set (n := Z.to_N (x mod 256)).
  assert (Hn : (n < 256)%N) by (unfold n; lia).
  pose proof (byte_of_ascii_via_N (ascii_of_N n)) as E.
  rewrite (N_ascii_embedding n Hn) in E. symmetry in E.
  apply Byte.to_of_N in E. rewrite E. unfold n. lia.
Qed.

(** [ToInt32] moves a number by a multiple of 2^32. *)
Lemma ToInt32_shift x : exists q, JS.ToInt32 x = x + q * 2 ^ 32.
Proof.
  exists (- ((x + 2 ^ 31) / 2 ^ 32)). unfold JS.ToInt32.
  rewrite Z.mod_eq by lia. lia.
Qed.

(** [(v >> s) & 0xff] is the byte of [v] at bit offset [s]. *)
Lemma and_ff x : JS.and x 255 mod 256 = x mod 256.
Proof.
  rewrite and_signed.
  change 255 with (Z.ones 8). rewrite Z.land_ones by lia.
  change (2 ^ 8) with 256.
  assert (Hr : 0 <= x mod 256 < 256) by (apply Z.mod_pos_bound; lia).
  rewrite ToInt32_small by lia. apply Z.mod_mod. lia.
Qed.

Lemma shr_div v s : 0 <= s < 32 -> JS.shr v s = JS.ToInt32 v / 2 ^ s.
Proof.
  intros Hs. unfold JS.shr. rewrite shiftCount_small by exact Hs.
  apply Z.shiftr_div_pow2. lia.
Qed.

Lemma shr_and_ff v s :
  0 <= s <= 24 -> JS.and (JS.shr v s) 255 mod 256 = (v / 2 ^ s) mod 256.
Proof.
  intros Hs. rewrite and_ff, shr_div by lia.
  destruct (ToInt32_shift v) as [q ->].
  replace (q * 2 ^ 32) with (q * 2 ^ (24 - s) * 256 * 2 ^ s).
  - rewrite Z.div_add by (apply Z.pow_nonzero; lia).
    apply Z.mod_add. lia.
  - rewrite <- !Z.mul_assoc. f_equal.
    change 256 with (2 ^ 8). rewrite <- !Z.pow_add_r by lia. f_equal. lia.
Qed.

(** Four consecutive stores. *)
Lemma insert4 {A} (pre rest : list A) n a0 a1 a2 a3 x0 x1 x2 x3 :
  length pre = n ->
  <[(n + 3)%nat := x3]>
    (<[(n + 2)%nat := x2]>
       (<[(n + 1)%nat := x1]>
          (<[n := x0]> (pre ++ a0 :: a1 :: a2 :: a3 :: rest))))
  = pre ++ x0 :: x1 :: x2 :: x3 :: rest.
Proof.
  intros <-.
  rewrite <- (Nat.add_0_r (length pre)) at 4.
  rewrite !insert_app_r. reflexivity.
Qed.

Lemma write_word_app v idx (pre rest : list byte) z0 z1 z2 z3 :
  length pre = (idx * 4)%nat ->
  write_word v idx (pre ++ z0 :: z1 :: z2 :: z3 :: rest)
  = pre ++ [ ToUint8 (JS.and (JS.shr v 24) 255); ToUint8 (JS.and (JS.shr v 16) 255);
             ToUint8 (JS.and (JS.shr v 8) 255); ToUint8 (JS.and v 255) ] ++ rest.
Proof.
  intros Hlen. unfold write_word, buf_set. cbn zeta.
  apply insert4. exact Hlen.
Qed.

(** [forEach] fills the zeroed buffer word by word. *)
Lemma forEach_write_word vs idx (pre : list byte) :
  length pre = (idx * 4)%nat ->
  forEach write_word vs idx (pre ++ replicate (length vs * 4) "000"%byte)
  = pre ++ flat_map
             (fun v => [ ToUint8 (JS.and (JS.shr v 24) 255);
                         ToUint8 (JS.and (JS.shr v 16) 255);
                         ToUint8 (JS.and (JS.shr v 8) 255);
                         ToUint8 (JS.and v 255) ]) vs.
Proof.
  revert idx pre. induction vs as [| v vs IH]; intros idx pre Hlen.
  - rewrite forEach_nil. reflexivity.
  - rewrite forEach_cons.
    change (length (v :: vs) * 4)%nat with (S (S (S (S (length vs * 4))))).
    cbn [replicate]. rewrite write_word_app by exact Hlen.
    cbn [flat_map]. rewrite !app_assoc. apply IH.
    rewrite length_app. cbn [length]. lia.
Qed.

Lemma map_byte_val_flat_map (vs : list Z) :
  map byte_val
    (flat_map
       (fun v => [ ToUint8 (JS.and (JS.shr v 24) 255);
                   ToUint8 (JS.and (JS.shr v 16) 255);
                   ToUint8 (JS.and (JS.shr v 8) 255);
                   ToUint8 (JS.and v 255) ]) vs)
  = flat_map be32 vs.
Proof.
  induction vs as [| v vs IH]; [reflexivity |].
  cbn [flat_map]. rewrite map_app, IH. f_equal.
  unfold be32. cbn [map]. rewrite !byte_val_ToUint8, !shr_and_ff, and_ff by lia.
  reflexivity.
Qed.

(** The digest: the state words, big-endian. *)
Lemma sea256Raw_be32 bytes key :
  map byte_val (sea256Raw bytes key) = flat_map be32 (finalState bytes key).
Proof.
  unfold sea256Raw. cbn zeta.
  pose proof (forEach_write_word (finalState bytes key) 0 [] eq_refl) as E.
  rewrite !app_nil_l in E. rewrite E.
  apply map_byte_val_flat_map.
Qed.

Lemma flat_map_be32_length vs : length (flat_map be32 vs) = (4 * length vs)%nat.
Proof.
  induction vs as [| v vs IH]; [reflexivity |].
  cbn [flat_map]. rewrite length_app, IH. cbn [length be32]. lia.
Qed.

Lemma sea256Raw_length bytes key : length (sea256Raw bytes key) = 32%nat.
Proof.
  rewrite <- (length_map byte_val), sea256Raw_be32, flat_map_be32_length.
  rewrite finalState_length. reflexivity.
Qed.

End SerializeFacts.

(** * Facts about the keystream *)

Section KeyFacts.

Import Sea StateSpec.

(** Doubling the key does not change the byte read at any position. *)
Lemma shiftValue_double key i : shiftValue (key ++ key) i = shiftValue key i.
Proof.
  rewrite !shiftValue_lookup, length_app.
  destruct key as [| b key']; [reflexivity |].
  set (key := b :: key'). set (n := length key).
  assert (Hn : (0 < n)%nat) by (unfold n, key; cbn [length]; lia).
  replace (n + n)%nat with (n * 2)%nat by lia.
  rewrite Nat.Div0.mod_mul_r.
  pose proof (Nat.mod_upper_bound i n ltac:(lia)) as Hi.
  pose proof (Nat.mod_upper_bound (i / n) 2 ltac:(lia)) as Ht.
  destruct ((i / n) mod 2)%nat as [| [| t]]; [| | lia].
  - rewrite Nat.mul_0_r, Nat.add_0_r, lookup_app_l by (fold n; lia). reflexivity.
  - rewrite Nat.mul_1_r, lookup_app_r by (fold n; lia). fold n.
    replace (i mod n + n - n)%nat with (i mod n)%nat by lia. reflexivity.
Qed.

(** A one-byte key yields that byte at every position. *)
Lemma shiftValue_single b i : shiftValue [b] i = byte_val b.
Proof.
  rewrite shiftValue_lookup. cbn [length].
  rewrite Nat.mod_1_r. reflexivity.
Qed.

(** The empty key yields 0 at every position. *)
Lemma shiftValue_empty i : shiftValue [] i = 0.
Proof. reflexivity. Qed.

(** The digest is a function of the final state. *)
Lemma sea256Raw_of_state bytes key key' :
  finalState bytes key = finalState bytes key' ->
  sea256Raw bytes key = sea256Raw bytes key'.
Proof. intros E. unfold sea256Raw. rewrite E. reflexivity. Qed.

End KeyFacts.

(** * Facts about the harness *)

Section PopcountFacts.

Import HashTester HarnessSpec.

Lemma popcount_loop_unfold x d :
  popcount_loop x d
  = if Z.eq_dec x 0 then d else popcount_loop (clearLowest x) (d + 1).
Proof.
  rewrite popcount_loop_equation_1.
  destruct (Z.eq_dec x 0); reflexivity.
Qed.

(** The count is added to the distance the loop starts from. *)
Lemma popcount_loop_acc x d : popcount_loop x d = d + popcount_loop x 0.
Proof.
  revert d.
  induction x as [x IH]
    using (well_founded_induction (wf_inverse_image _ _ _ popMeasure N.lt_wf_0)).
  intros d. rewrite (popcount_loop_unfold x d), (popcount_loop_unfold x 0).
  destruct (Z.eq_dec x 0) as [| Hx]; [lia |].
  rewrite (IH _ (clearLowest_decreases x Hx) (d + 1)).
  rewrite (IH _ (clearLowest_decreases x Hx) (0 + 1)). lia.
Qed.

(** On a byte the loop counts the set bits: all 256 cases. *)
Lemma popcount_loop_byte z :
  0 <= z < 256 -> popcount_loop z 0 = popcount8 z.
Proof.
  intros Hz.
  assert (T : forallb (fun n => popcount_loop (Z.of_nat n) 0 =? popcount8 (Z.of_nat n))
                (seq 0 256) = true) by (vm_compute; reflexivity).
  rewrite forallb_forall in T.
  specialize (T (Z.to_nat z)). rewrite Z2Nat.id in T by lia.
  apply Z.eqb_eq, T, in_seq. lia.
Qed.

Lemma lxor_byte_range x y :
  0 <= x < 256 -> 0 <= y < 256 -> 0 <= Z.lxor x y < 256.
Proof.
  intros Hx Hy.
  assert (E : Z.lxor x y = Z.lxor x y mod 2 ^ 8).
  { apply Z.bits_inj'. intros i Hi.
    rewrite Z.testbit_mod_pow2, Z.lxor_spec by lia.
    destruct (Z.ltb_spec i 8) as [Hlt | Hge]; [reflexivity |].
    rewrite <- (Z.mod_small x (2 ^ 8)), <- (Z.mod_small y (2 ^ 8)) by (cbn; lia).
    rewrite !Z.testbit_mod_pow2 by lia.
    destruct (Z.ltb_spec i 8); [lia | reflexivity]. }
  rewrite E. apply Z.mod_pos_bound. lia.
Qed.

(** One step of the distance loops, on two byte values. *)
Lemma popcount_xor_bytes x y d :
  0 <= x < 256 -> 0 <= y < 256 ->
  popcount_loop (JS.xor x y) d = d + popcount8 (Z.lxor x y).
Proof.
  intros Hx Hy. pose proof (lxor_byte_range x y Hx Hy) as Hr.
  rewrite xor_signed, ToInt32_small by lia.
  rewrite popcount_loop_acc, popcount_loop_byte by exact Hr. reflexivity.
Qed.

(** A byte read with 0 beyond the end of the buffer. *)
Lemma orZero_buf_get (buf : list byte) i :
  JS.orZero (buf_get buf i) = byte_val (default "000"%byte (buf !! i)).
Proof. unfold JS.orZero, buf_get. destruct (buf !! i); reflexivity. Qed.

Lemma popcount8_range x : 0 <= popcount8 x <= 8.
Proof.
  unfold popcount8.
  assert (H : forall l : list nat,
             0 <= foldr (fun i s => Z.b2z (Z.testbit x (Z.of_nat i)) + s) 0 l
             <= Z.of_nat (length l)).
  { induction l as [| i l IH]; cbn [foldr length]; [lia |].
    destruct (Z.testbit x (Z.of_nat i)); cbn [Z.b2z]; lia. }
  specialize (H (seq 0 8)). rewrite length_seq in H. lia.
Qed.

(** The sum of the differing bits over the first [n] positions, reading
    0 beyond the end, is the Hamming distance of the buffers resized to
    [n] bytes. *)
Lemma sum_differing_resize n (a b : list byte) :
  foldr (fun j s =>
           differing_bits (default "000"%byte (a !! j)) (default "000"%byte (b !! j)) + s)
        0 (seq 0 n)
  = hamming (resize n "000"%byte a) (resize n "000"%byte b).
Proof.
  revert a b. induction n as [| n IH]; intros a b.
  { rewrite !resize_0. reflexivity. }
  cbn [seq foldr]. rewrite <- fmap_S_seq, foldr_fmap.
  assert (Hcons : forall x y (a' b' : list byte),
             hamming (x :: a') (y :: b') = differing_bits x y + hamming a' b')
    by reflexivity.
  destruct a as [| x a], b as [| y b]; cbn [resize replicate];
    rewrite <- ?resize_nil, Hcons, <- IH; reflexivity.
Qed.

Lemma hamming_range (a b : list byte) :
  0 <= hamming a b <= 8 * Z.of_nat (length a).
Proof.
  revert b. induction a as [| x a IH]; intros b.
  - cbn. lia.
  - destruct b as [| y b]; [cbn; lia |].
    change (hamming (x :: a) (y :: b)) with (differing_bits x y + hamming a b).
    specialize (IH b).
    pose proof (popcount8_range (Z.lxor (byte_val x) (byte_val y))) as Hp.
    fold (differing_bits x y) in Hp.
    rewrite length_cons, Nat2Z.inj_succ. lia.
Qed.

(** [hammingDistance] sums over the positions of the first buffer. *)
Lemma hammingDistance_bytes_resize (a b : list byte) :
  hammingDistance_bytes a b = hamming a (resize (length a) "000"%byte b).
Proof.
  unfold hammingDistance_bytes. cbn zeta.
  rewrite (for_loop_sum _
    (fun j => differing_bits (default "000"%byte (a !! j)) (default "000"%byte (b !! j)))).
  - rewrite sum_differing_resize, resize_all. lia.
  - intros j d _. rewrite !orZero_buf_get.
    apply popcount_xor_bytes; apply byte_val_range.
Qed.

(** [bitDiff] sums over the positions of the longer buffer. *)
Lemma bitDiff_bytes_resize (a b : list byte) :
  bitDiff_bytes a b
  = hamming (resize (Nat.max (length a) (length b)) "000"%byte a)
            (resize (Nat.max (length a) (length b)) "000"%byte b).
Proof.
  unfold bitDiff_bytes. cbn zeta.
  rewrite (for_loop_sum _
    (fun j => differing_bits (default "000"%byte (a !! j)) (default "000"%byte (b !! j)))).
  - rewrite sum_differing_resize. lia.
  - intros j d _.
    assert (Ea : (if (j <? length a)%nat then JS.orZero (buf_get a j) else 0)
                 = byte_val (default "000"%byte (a !! j))).
    { destruct (Nat.ltb_spec j (length a)); [apply orZero_buf_get |].
      rewrite lookup_ge_None_2 by lia. reflexivity. }
    assert (Eb : (if (j <? length b)%nat then JS.orZero (buf_get b j) else 0)
                 = byte_val (default "000"%byte (b !! j))).
    { destruct (Nat.ltb_spec j (length b)); [apply orZero_buf_get |].
      rewrite lookup_ge_None_2 by lia. reflexivity. }
    rewrite Ea, Eb. apply popcount_xor_bytes; apply byte_val_range.
Qed.

Lemma bitDiff_bytes_range (a b : list byte) :
  0 <= bitDiff_bytes a b <= 8 * Z.of_nat (Nat.max (length a) (length b)).
Proof.
  rewrite bitDiff_bytes_resize.
  pose proof (hamming_range (resize (Nat.max (length a) (length b)) "000"%byte a)
                (resize (Nat.max (length a) (length b)) "000"%byte b)) as Hr.
  rewrite length_resize in Hr. exact Hr.
Qed.

End PopcountFacts.

Section PreimageFacts.

Import HashTester HarnessSpec.
Context `{Runtime}.
Variable this : HashTester.t.

Lemma draws_length inputLength n g : length (draws inputLength n g) = n.
Proof.
  revert g. induction n as [| n IH]; intros g; [reflexivity |].
  cbn [draws]. destruct (randomBytes inputLength g) as [bytes g'].
  cbn [length]. rewrite IH. reflexivity.
Qed.

(** The loop hashes the drawn candidates in order and stops at the first
    one whose hash is [output]. *)
Lemma preimage_loop_spec output inputLength todo :
  forall i g hashed,
    match list_find (fun c => hashFn this c (testingKey this) = output)
            (draws inputLength todo g) with
    | Some (idx, c) =>
        (preimage_loop this output inputLength i todo g hashed).1.1
        = Some (Found c (i + idx + 1))
        /\ (preimage_loop this output inputLength i todo g hashed).2
           = rev (take (S idx) (draws inputLength todo g)) ++ hashed
    | None =>
        (preimage_loop this output inputLength i todo g hashed).1.1 = None
        /\ (preimage_loop this output inputLength i todo g hashed).2
           = rev (draws inputLength todo g) ++ hashed
    end.
Proof.
  induction todo as [| todo IH]; intros i g hashed.
  - cbn. split; reflexivity.
  - cbn [preimage_loop draws].
    destruct (randomBytes inputLength g) as [bytes g'].
    set (c := utf8Decode bytes).
    cbn [list_find].
    destruct (decide (hashFn this c (testingKey this) = output)) as [Hc | Hc].
    + cbn. rewrite Nat.add_0_r. split; reflexivity.
    + specialize (IH (S i) g' (c :: hashed)).
      destruct (list_find _ (draws inputLength todo g')) as [[idx c'] |];
        cbn [fmap option_fmap option_map prod_map fst snd id];
        destruct IH as [IH1 IH2]; rewrite IH1, IH2; split.
      * do 2 f_equal. lia.
      * cbn [take rev]. rewrite <- app_assoc. reflexivity.
      * reflexivity.
      * cbn [rev]. rewrite <- app_assoc. reflexivity.
Qed.

End PreimageFacts.

Section DiffusionFacts.

Import HashTester HarnessSpec.

(** A sum of [n] terms between 0 and [M]. *)
Lemma sum_range (g : nat -> Z) (M : Z) i n :
  (forall j, 0 <= g j <= M) ->
  0 <= foldr (fun j s => g j + s) 0 (seq i n) <= Z.of_nat n * M.
Proof.
  intros Hg. revert i. induction n as [| n IH]; intros i.
  - cbn. lia.
  - cbn [seq foldr]. specialize (IH (S i)). specialize (Hg i). nia.
Qed.

Lemma rem_pos i m : (0 < m)%nat -> JS.rem i m = Some (i mod m)%nat.
Proof.
  intros Hm. unfold JS.rem.
  destruct (Nat.eqb_spec m 0); [lia | reflexivity].
Qed.

Lemma Qeq_bool_inject_pos z : 0 < z -> Qeq_bool (inject_Z z) 0 = false.
Proof.
  intros Hz. apply not_true_is_false. intros E.
  apply Qeq_bool_eq in E. unfold Qeq, inject_Z in E. cbn in E. lia.
Qed.

(** The hexadecimal codec of the evaluation runtime round-trips. *)
Lemma hexDecode_hexEncode buf :
  AsciiNode.hexDecode (AsciiNode.hexEncode buf) = buf.
Proof.
  induction buf as [| b buf IH]; [reflexivity |].
  unfold AsciiNode.hexEncode. cbn [flat_map app].
  fold (AsciiNode.hexEncode buf). cbn [AsciiNode.hexDecode].
  assert (E : AsciiNode.hexValue (AsciiNode.hexDigit (byte_val b / 16))
              = Some (byte_val b / 16)
              /\ AsciiNode.hexValue (AsciiNode.hexDigit (byte_val b mod 16))
                 = Some (byte_val b mod 16)
              /\ ToUint8 (16 * (byte_val b / 16) + byte_val b mod 16) = b)
    by (destruct b; vm_compute; repeat split; reflexivity).
  destruct E as (-> & -> & ->). rewrite IH. reflexivity.
Qed.

Lemma sea256_hex_length input key :
  length (AsciiNode.hexDecode (AsciiNode.sea256_hex input key)) = 32%nat.
Proof.
  unfold AsciiNode.sea256_hex. rewrite hexDecode_hexEncode.
  apply sea256Raw_length.
Qed.

End DiffusionFacts.

(** * Properties of the hash core *)

(** ** The non-linear step *)

(** C2, as the specification states it, fails.  Hashing the input ["a"],
    the first mixing step calls [hashByte] on 4011518227 and [u = 97]; its
    second round has [alpha = 789757524] and [beta = 2486112958].  With
    every operation exact modulo 2^32 the non-linear step would yield
    604135936 there; the code yields 604045824, the product [scale * zeta]
    (beyond 2^53) having lost its low bits to the rounding of the double
    multiplication. *)
Lemma gammaValue_not_exact :
  Sea.rotL (JS.xor (Sea.hashByte 4011518227 97) 97) 5 = 789757524 /\
  Sea.rotR (Sea.wrap32 (JS.add (Sea.hashByte 4011518227 97) 97)) 3 = 2486112958 /\
  Sea.gammaValue 789757524 2486112958 97 = 604045824 /\
  SeaSpec.gamma_exact 789757524 2486112958 97 = 604135936 /\
  Sea.gammaValue 789757524 2486112958 97 <> SeaSpec.gamma_exact 789757524 2486112958 97.
Proof. vm_compute. repeat split; discriminate. Qed.

(** C2, amended: for all numbers [alpha], [beta] and every byte [u] the
    non-linear step computes [zeta] as the sum of the signed 32-bit results
    of [alpha xor beta] and [alpha and beta], rounds the product
    [scale * zeta] to the nearest double (53 significant bits, ties to
    even), and from there on wraps modulo 2^32 as stated:
    [z = (8 * product) mod 2^32], [z = (z + u * grow) mod 2^32],
    [z = rotl32 (z xor flip) 7], [z = z and collapse].  Whenever
    [|scale * zeta| < 2^53] the product is exact and the result is the one
    of exact arithmetic modulo 2^32. *)
Theorem gammaValue_rounded (alpha beta u : Z) :
  0 <= u < 256 ->
  Sea.gammaValue alpha beta u = SeaSpec.gamma_rounded alpha beta u /\
  (Z.abs (Sea.scale (Sea.nlConstants Sea.config) * SeaSpec.zeta_signed alpha beta) < 2 ^ 53 ->
   Sea.gammaValue alpha beta u = SeaSpec.gamma_exact alpha beta u).
Proof.
  intros Hu.
  assert (E : Sea.gammaValue alpha beta u = SeaSpec.gamma_rounded alpha beta u).
  { rewrite gammaValue_of_product by exact Hu.
    unfold SeaSpec.gamma_rounded, JS.mul. rewrite zetaValue_signed. reflexivity. }
  split; [exact E |].
  intros Hsmall. rewrite E. unfold SeaSpec.gamma_rounded, SeaSpec.gamma_exact.
  rewrite fl_small by exact Hsmall.
  rewrite <- gamma_of_product_mod, <- (gamma_of_product_mod (_ * SeaSpec.zeta_exact _ _)).
  f_equal.
  rewrite <- Z.mul_mod_idemp_r by lia.
  change (SeaSpec.zeta_signed alpha beta mod 2 ^ 32)
    with (JS.ToUint32 (SeaSpec.zeta_signed alpha beta)).
  rewrite zeta_signed_exact. unfold JS.ToUint32.
  rewrite Z.mul_mod_idemp_r by lia. reflexivity.
Qed.

(** The amended C2 at [alpha = 0x12345678], [beta = 0x0000ffff], [u = 0x61],
    and its exact case at [alpha = 3], [beta = 5]. *)
Lemma gammaValue_rounded_witness :
  (0 <= 97 < 256) /\
  Sea.gammaValue 0x12345678 0x0000ffff 97 = SeaSpec.gamma_rounded 0x12345678 0x0000ffff 97 /\
  Sea.gammaValue 3 5 97 = SeaSpec.gamma_exact 3 5 97.
Proof.
  split; [lia |]. split.
  - apply (gammaValue_rounded 0x12345678 0x0000ffff 97). lia.
  - apply (gammaValue_rounded 3 5 97); [lia | vm_compute; reflexivity].
Defined.

(** ** One pass per input byte *)

(** C1, as the specification states it, fails: the state has eight words,
    not seven.  On the first byte ["a"] under the key ["k"] the pass
    rewrites word 7 as well, [entangle] folds the eighth word in, and the
    resulting state is not the one a seven-word pass produces. *)
Lemma absorb_not_seven_words :
  length (Sea.initialValues Sea.config) = 8%nat /\
  Sea.finalState ["a"%byte] ["k"%byte] !! 7%nat <> Sea.initialValues Sea.config !! 7%nat /\
  Sea.entangle 97 (Sea.initialValues Sea.config)
    <> StateSpec.entangle_fold 97 (take 7 (Sea.initialValues Sea.config)) /\
  Sea.finalState ["a"%byte] ["k"%byte]
    <> StateSpec.pass_seven 97 (Sea.shiftValue ["k"%byte] 1) (Sea.initialValues Sea.config).
Proof. vm_compute. repeat split; discriminate. Qed.

(** C1, amended: for every input byte [u] at 1-indexed position [i] (that
    is, after the bytes [pre], with [i = length pre + 1]) the hash core
    computes [k = key[i mod len(key)]] (0 for the empty key) and rewrites
    the eight state words in order 0..7: word [j] becomes
    [wrap32 (entangle (u, state) + k)] where the array [entangle] reads has
    the words below [j] already rewritten in this pass and the words from
    [j] on still old.  [entangle] folds the words of a 32-bit array from
    the first one on: [acc = words[0]], then
    [acc = roundMix (wrap32 (acc + w), u)] for each later word [w]. *)
Theorem absorb_sequential (key pre : list byte) (u : byte) :
  let i := S (length pre) in
  let k := Sea.shiftValue key i in
  let state := Sea.finalState pre key in
  let state' := Sea.finalState (pre ++ [u]) key in
  k = default 0 (byte_val <$> key !! (i mod length key)%nat) /\
  length state = 8%nat /\ length state' = 8%nat /\
  (forall j, (j < 8)%nat ->
     state' !! j
     = Some ((Sea.entangle (byte_val u) (take j state' ++ drop j state) + k) mod 2 ^ 32)) /\
  (forall words, Forall StateSpec.u32 words ->
     Sea.entangle (byte_val u) words = StateSpec.entangle_fold (byte_val u) words).
Proof.
  intros i k state state'.
  assert (Hs : Forall StateSpec.u32 state) by apply finalState_u32.
  assert (Hlen : length state = 8%nat) by apply finalState_length.
  destruct (update_pass (byte_val u) k state Hs (shiftValue_range key i))
    as (Hlen' & Hs' & Hpass).
  assert (E : state' = for_loop
                (fun j state => u32_set state j (JS.add (Sea.entangle (byte_val u) state) k))
                0 (length state) state).
  { unfold state'. rewrite finalState_snoc, absorb_unfold. reflexivity. }
  rewrite <- E in Hlen', Hs', Hpass.
  split; [apply shiftValue_lookup |].
  split; [exact Hlen |].
  split; [rewrite Hlen'; exact Hlen |].
  split; [| intros words Hw; apply entangle_is_fold; exact Hw].
  intros j Hj. rewrite Hpass by lia.
  rewrite entangle_is_fold; [reflexivity |].
  apply Forall_app. split; [apply Forall_take | apply Forall_drop]; assumption.
Qed.

(** The amended C1 on the first byte ["a"] under the key ["k"], at word 3
    and for the initial words. *)
Lemma absorb_sequential_witness :
  (3 < 8)%nat /\
  Forall StateSpec.u32 (Sea.initialValues Sea.config) /\
  Sea.finalState ([] ++ ["a"%byte]) ["k"%byte] !! 3%nat
  = Some ((Sea.entangle (byte_val "a")
             (take 3 (Sea.finalState ([] ++ ["a"%byte]) ["k"%byte])
              ++ drop 3 (Sea.finalState [] ["k"%byte]))
           + Sea.shiftValue ["k"%byte] 1) mod 2 ^ 32) /\
  Sea.entangle (byte_val "a") (Sea.initialValues Sea.config)
  = StateSpec.entangle_fold (byte_val "a") (Sea.initialValues Sea.config).
Proof.
  split; [lia |]. split; [apply initialValues_u32 |]. split.
  - apply (absorb_sequential ["k"%byte] [] "a"%byte). lia.
  - apply (absorb_sequential ["k"%byte] [] "a"%byte). apply initialValues_u32.
Defined.

(** ** The digest *)

(** C3, as the specification states it, fails: the digest of the input
    ["a"] under the key ["k"] has 32 bytes, not 28. *)
Lemma digest_not_28_bytes :
  length (Sea.sea256Raw ["a"%byte] ["k"%byte]) = 32%nat /\
  length (Sea.sea256Raw ["a"%byte] ["k"%byte]) <> 28%nat.
Proof. vm_compute. split; [reflexivity | discriminate]. Qed.

(** C3, amended: for every input and every key the raw digest is exactly
    32 bytes long and is the 8 state words, each a 32-bit word, serialized
    big-endian in word order, whatever the length of the input. *)
Theorem digest_is_state_big_endian (bytes key : list byte) :
  length (Sea.sea256Raw bytes key) = 32%nat /\
  length (Sea.finalState bytes key) = 8%nat /\
  Forall StateSpec.u32 (Sea.finalState bytes key) /\
  map byte_val (Sea.sea256Raw bytes key)
  = flat_map StateSpec.be32 (Sea.finalState bytes key).
Proof.
  split; [apply sea256Raw_length |].
  split; [apply finalState_length |].
  split; [apply finalState_u32 | apply sea256Raw_be32].
Qed.

(** The digest of ["hello"] under the key ["test-key"]. *)
Example sea256Raw_hello :
  map byte_val
    (Sea.sea256Raw ["h"; "e"; "l"; "l"; "o"]%byte
       ["t"; "e"; "s"; "t"; "-"; "k"; "e"; "y"]%byte)
  = [ 0x9f; 0x5c; 0x47; 0xbc;  0x78; 0xff; 0x16; 0x19;
      0x24; 0xbe; 0x3f; 0x86;  0x1f; 0xaa; 0xf0; 0x53;
      0xe9; 0x68; 0xb3; 0x61;  0xd3; 0x2c; 0xc3; 0x97;
      0xa6; 0xb5; 0xe1; 0x5e;  0xf8; 0xc5; 0x5a; 0x80 ].
Proof. vm_compute. reflexivity. Qed.

(** ** The empty input *)

(** C4, as the specification states it, fails: the digest of the empty
    input is not the serialization of seven initial words. *)
Lemma empty_input_not_seven_words :
  map byte_val (Sea.sea256Raw [] ["k"%byte])
  <> flat_map StateSpec.be32 (take 7 (Sea.initialValues Sea.config)).
Proof. vm_compute. discriminate. Qed.

(** C4, amended: for every key, hashing the empty input returns the
    big-endian serialization of the 8 untouched initial state words (no
    mixing round executes): the 32 bytes
    000AA016 EF1048FD 0002344B 00106895 00017BF2 0000FFFF 0000FFFF 0000FFFF. *)
Theorem empty_input_digest (key : list byte) :
  Sea.finalState [] key = Sea.initialValues Sea.config /\
  length (Sea.initialValues Sea.config) = 8%nat /\
  map byte_val (Sea.sea256Raw [] key)
  = flat_map StateSpec.be32 (Sea.initialValues Sea.config) /\
  map byte_val (Sea.sea256Raw [] key)
  = [ 0x00; 0x0A; 0xA0; 0x16;  0xEF; 0x10; 0x48; 0xFD;
      0x00; 0x02; 0x34; 0x4B;  0x00; 0x10; 0x68; 0x95;
      0x00; 0x01; 0x7B; 0xF2;  0x00; 0x00; 0xFF; 0xFF;
      0x00; 0x00; 0xFF; 0xFF;  0x00; 0x00; 0xFF; 0xFF ].
Proof.
  split; [reflexivity |].
  split; [reflexivity |].
  split; [apply (sea256Raw_be32 [] key) |].
  vm_compute. reflexivity.
Qed.

(** ** The key *)

(** C5: the key is consumed cyclically, at position [i mod length]: for
    every input [x] and every non-empty key [k], the byte mixed in at
    position [i] is the key byte at index [i mod length k], and the final
    state is the one of that keystream, the input bytes being at the
    positions 1, 2, ...; position [i] reads the same byte from [k ++ k]
    as from [k], and the digests under [k ++ k] and [k] are equal; a
    1-byte key [[b]] yields [b] at every position, so the digest under it
    is the one of the constant keystream [b]. *)
Theorem key_cycling (x k : list byte) :
  k <> [] ->
  (forall i, exists b : byte,
     k !! (i mod length k)%nat = Some b /\ Sea.shiftValue k i = byte_val b) /\
  Sea.finalState x k
  = StateSpec.finalState_keystream
      (fun i => default 0 (byte_val <$> k !! (i mod length k)%nat)) x /\
  (forall i, Sea.shiftValue (k ++ k) i = Sea.shiftValue k i) /\
  Sea.sea256Raw x (k ++ k) = Sea.sea256Raw x k /\
  (forall b : byte,
     (forall i, Sea.shiftValue [b] i = byte_val b) /\
     Sea.finalState x [b] = StateSpec.finalState_keystream (fun _ => byte_val b) x).
Proof.
  intros Hk.
  assert (Hlen : (0 < length k)%nat) by (destruct k; [congruence | cbn [length]; lia]).
  split.
  { intros i.
    destruct (lookup_lt_is_Some_2 k (i mod length k)%nat
                ltac:(apply Nat.mod_upper_bound; lia)) as [b Hb].
    exists b. split; [exact Hb |].
    rewrite shiftValue_lookup, Hb. reflexivity. }
  split.
  { rewrite finalState_as_keystream.
    apply finalState_keystream_ext. intros i. apply shiftValue_lookup. }
  split; [intros i; apply shiftValue_double |].
  split.
  - apply sea256Raw_of_state.
    rewrite !finalState_as_keystream.
    apply finalState_keystream_ext, shiftValue_double.
  - intros b. split; [intros i; apply shiftValue_single |].
    rewrite finalState_as_keystream.
    apply finalState_keystream_ext, shiftValue_single.
Qed.

(** C5 on the input ["hello"] and the key ["test-key"]: position 9 reads
    the key byte at index 1, and the doubled key gives the same digest. *)
Lemma key_cycling_witness :
  ["t"; "e"; "s"; "t"; "-"; "k"; "e"; "y"]%byte <> [] /\
  (exists b : byte,
     ["t"; "e"; "s"; "t"; "-"; "k"; "e"; "y"]%byte
       !! (9 mod length ["t"; "e"; "s"; "t"; "-"; "k"; "e"; "y"]%byte)%nat = Some b /\
     Sea.shiftValue ["t"; "e"; "s"; "t"; "-"; "k"; "e"; "y"]%byte 9 = byte_val b) /\
  Sea.sea256Raw ["h"; "e"; "l"; "l"; "o"]%byte
    (["t"; "e"; "s"; "t"; "-"; "k"; "e"; "y"] ++ ["t"; "e"; "s"; "t"; "-"; "k"; "e"; "y"])%byte
  = Sea.sea256Raw ["h"; "e"; "l"; "l"; "o"]%byte ["t"; "e"; "s"; "t"; "-"; "k"; "e"; "y"]%byte.
Proof.
  assert (Hk : ["t"; "e"; "s"; "t"; "-"; "k"; "e"; "y"]%byte <> []) by discriminate.
  pose proof (key_cycling ["h"; "e"; "l"; "l"; "o"]%byte
                ["t"; "e"; "s"; "t"; "-"; "k"; "e"; "y"]%byte Hk)
    as (Hpos & _ & _ & Hdouble & _).
  split; [exact Hk |].
  split; [exact (Hpos 9%nat) | exact Hdouble].
Defined.

(** C10: hashing with a zero-length key does not fail: the keystream
    lookup returns 0 at every position, and the digest of every input [x]
    under the empty key is the one computed with keystream byte 0 for
    every input byte (it is also the digest under the one-byte key [00]);
    it has the 32 bytes of any digest. *)
Theorem empty_key_zero_keystream (x : list byte) :
  (forall i, Sea.shiftValue [] i = 0) /\
  Sea.finalState x [] = StateSpec.finalState_keystream (fun _ => 0) x /\
  Sea.sea256Raw x [] = Sea.sea256Raw x ["000"%byte] /\
  length (Sea.sea256Raw x []) = 32%nat.
Proof.
  split; [intros i; apply shiftValue_empty |].
  split; [rewrite finalState_as_keystream; apply finalState_keystream_ext, shiftValue_empty |].
  split; [| apply sea256Raw_length].
  apply sea256Raw_of_state.
  rewrite !finalState_as_keystream.
  apply finalState_keystream_ext. intros i.
  rewrite shiftValue_single. reflexivity.
Qed.

(** * Properties of the harness *)

(** ** Distances *)

(** C6, as the specification states it, fails: on the buffers [00] and
    [00 ff], of unequal length, [hammingDistance] does not fail with
    [LengthMismatch]; it returns 0, the byte [ff] past the end of the first
    buffer never being read. *)
Lemma hammingDistance_no_length_check :
  HarnessSpec.hammingDistance_checked ["000"%byte] ["000"%byte; "255"%byte]
    = inl HarnessSpec.LengthMismatch /\
  HashTester.hammingDistance_bytes ["000"%byte] ["000"%byte; "255"%byte] = 0 /\
  inr (HashTester.hammingDistance_bytes ["000"%byte] ["000"%byte; "255"%byte])
    <> HarnessSpec.hammingDistance_checked ["000"%byte] ["000"%byte; "255"%byte].
Proof. vm_compute. repeat split; discriminate. Qed.

(** C6, amended: [hammingDistance], applied to two byte sequences (the
    hex-decoded digests), never fails and throws nothing, whatever their
    lengths: it returns the number of differing bits over the positions of
    the first sequence, reading the second one as cut or zero-extended to
    that length; on sequences of equal length this is their Hamming
    distance. *)
Theorem hammingDistance_over_first (R : Runtime) (hex1 hex2 : list Z) (a b : list byte) :
  HashTester.hammingDistance hex1 hex2
    = HashTester.hammingDistance_bytes (hexDecode hex1) (hexDecode hex2) /\
  HashTester.hammingDistance_bytes a b
    = HarnessSpec.hamming a
        (take (length a) b ++ replicate (length a - length b) "000"%byte) /\
  (length a = length b ->
   HashTester.hammingDistance_bytes a b = HarnessSpec.hamming a b).
Proof.
  split; [reflexivity |].
  assert (E : HashTester.hammingDistance_bytes a b
              = HarnessSpec.hamming a
                  (take (length a) b ++ replicate (length a - length b) "000"%byte)).
  { rewrite hammingDistance_bytes_resize. f_equal.
    destruct (Nat.le_ge_cases (length a) (length b)).
    - rewrite resize_le by lia.
      replace (length a - length b)%nat with 0%nat by lia.
      rewrite app_nil_r. reflexivity.
    - rewrite resize_ge, firstn_all2 by lia. reflexivity. }
  split; [exact E |].
  intros Hlen. rewrite E, Hlen, Nat.sub_diag, firstn_all, app_nil_r. reflexivity.
Qed.

(** The amended C6 on the digests [0f 00] and [f0 01]: 9 differing bits. *)
Lemma hammingDistance_over_first_witness :
  length ["015"%byte; "000"%byte] = length ["240"%byte; "001"%byte] /\
  HashTester.hammingDistance_bytes ["015"%byte; "000"%byte] ["240"%byte; "001"%byte]
  = HarnessSpec.hamming ["015"%byte; "000"%byte] ["240"%byte; "001"%byte].
Proof.
  split; [reflexivity |].
  apply (hammingDistance_over_first AsciiNode.runtime [] []
           ["015"%byte; "000"%byte] ["240"%byte; "001"%byte]).
  reflexivity.
Defined.

(** C7: [bitDiff] on two byte sequences of possibly unequal length counts
    the differing bits with the shorter sequence zero-extended to the
    length of the longer one, never cut; for four zero bytes it returns 0
    against two zero bytes and 16 against [ff ff]. *)
Theorem bitDiff_zero_extends (R : Runtime) (hexA hexB : list Z) (a b : list byte) :
  HashTester.bitDiff hexA hexB
    = HashTester.bitDiff_bytes (hexDecode hexA) (hexDecode hexB) /\
  HashTester.bitDiff_bytes a b
    = HarnessSpec.hamming
        (a ++ replicate (Nat.max (length a) (length b) - length a) "000"%byte)
        (b ++ replicate (Nat.max (length a) (length b) - length b) "000"%byte) /\
  HashTester.bitDiff_bytes ["000"; "000"; "000"; "000"]%byte ["000"; "000"]%byte = 0 /\
  HashTester.bitDiff_bytes ["000"; "000"; "000"; "000"]%byte ["255"; "255"]%byte = 16.
Proof.
  split; [reflexivity |].
  split; [| split; vm_compute; reflexivity].
  rewrite bitDiff_bytes_resize, !resize_ge by lia. reflexivity.
Qed.

(** ** Diffusion *)

(** C8: for every non-empty input [x] and every trial count [n > 0], given
    a hash function whose digests all decode to [L > 0] bytes (28 in the
    specification, 32 for [sea256]), [diffusion x n] returns
    [(sum / n) / (L * 8)], each quotient rounded to a double, where [sum]
    adds the bit differences between the digest of [x] and the digest of
    [x] with bit [i mod (len(x) * 8)] flipped, for [i] from 0 to [n - 1];
    the value lies in [0, 1].  The rounding is any monotone one that is
    exact on integers up to 2^53, as that of IEEE doubles is. *)
Theorem diffusion_in_unit_interval (R : Runtime) (this : HashTester.t)
    (x : list Z) (n L : nat) :
  (forall p q : Q, (p <= q)%Q -> (roundDouble p <= roundDouble q)%Q) ->
  (forall z : Z, Z.abs z <= 2 ^ 53 -> (roundDouble (inject_Z z) == inject_Z z)%Q) ->
  (forall s, length (hexDecode (HashTester.hashFn this s (HashTester.testingKey this))) = L) ->
  x <> [] -> (0 < n)%nat -> (0 < L)%nat -> Z.of_nat (L * 8) <= 2 ^ 53 ->
  exists q : Q,
    HashTester.diffusion this x n = Some q /\
    q = roundDouble
          (roundDouble (inject_Z (HarnessSpec.diffusion_sum this x n) / inject_Z (Z.of_nat n))
           / inject_Z (Z.of_nat (L * 8))) /\
    (0 <= q <= 1)%Q.
Proof.
  intros Hmono Hexact Hlen Hx Hn HL HL53.
  set (sum := HarnessSpec.diffusion_sum this x n).
  assert (Hxlen : (0 < length x * 8)%nat) by (destruct x; [congruence | cbn [length]; lia]).
  (* the loop adds up the sum of the specification *)
  assert (Eloop :
    for_loop
      (fun i totalDiffBits =>
         totalDiffBits
         + HashTester.bitDiff
             (HashTester.hashFn this x (HashTester.testingKey this))
             (HashTester.hashFn this
                (HashTester.flipBit x (JS.rem i (length x * 8)))
                (HashTester.testingKey this)))
      0 n 0 = sum).
  { rewrite (for_loop_sum _
      (fun i => HashTester.bitDiff
                  (HashTester.hashFn this x (HashTester.testingKey this))
                  (HashTester.hashFn this
                     (HashTester.flipBit x (Some (i mod (length x * 8))%nat))
                     (HashTester.testingKey this)))).
    - apply Z.add_0_l.
    - intros j d _. rewrite rem_pos by exact Hxlen. reflexivity. }
  (* every term lies between 0 and the number of digest bits *)
  assert (Hsum : 0 <= sum <= Z.of_nat n * Z.of_nat (L * 8)).
  { apply sum_range. intros j. unfold HashTester.bitDiff.
    pose proof (bitDiff_bytes_range
      (hexDecode (HashTester.hashFn this x (HashTester.testingKey this)))
      (hexDecode (HashTester.hashFn this
                    (HashTester.flipBit x (Some (j mod (length x * 8))%nat))
                    (HashTester.testingKey this)))) as Hr.
    rewrite !Hlen, Nat.max_id in Hr. lia. }
  set (qn := inject_Z (Z.of_nat n)).
  set (qb := inject_Z (Z.of_nat (L * 8))).
  assert (Hqn : (0 < qn)%Q) by (unfold qn; rewrite <- (Zlt_Qlt 0); lia).
  assert (Hqb : (0 < qb)%Q) by (unfold qb; rewrite <- (Zlt_Qlt 0); lia).
  set (avg := roundDouble (inject_Z sum / qn)).
  assert (Havg : (0 <= avg <= qb)%Q).
  { split.
    - rewrite <- (Hexact 0) by (cbn; lia). apply Hmono.
      apply Qle_shift_div_l; [exact Hqn |].
      rewrite Qmult_0_l. rewrite <- (Zle_Qle 0). lia.
    - unfold qb. rewrite <- (Hexact (Z.of_nat (L * 8))) by lia. apply Hmono.
      apply Qle_shift_div_r; [exact Hqn |].
      unfold qn. rewrite <- inject_Z_mult, <- Zle_Qle. lia. }
  exists (roundDouble (avg / qb)).
  split; [| split; [reflexivity |]].
  - unfold HashTester.diffusion. cbn zeta.
    rewrite Eloop, Hlen. unfold HashTester.fdiv.
    rewrite (Qeq_bool_inject_pos (Z.of_nat n)) by lia.
    cbn [mbind option_bind].
    rewrite (Qeq_bool_inject_pos (Z.of_nat (L * 8))) by lia.
    reflexivity.
  - split.
    + rewrite <- (Hexact 0) by (cbn; lia). apply Hmono.
      apply Qle_shift_div_l; [exact Hqb |].
      rewrite Qmult_0_l. apply Havg.
    + rewrite <- (Hexact 1) by (cbn; lia). apply Hmono.
      apply Qle_shift_div_r; [exact Hqb |].
      rewrite Qmult_1_l. apply Havg.
Qed.

(** C8 for [sea256] (32-byte digests) on the input ["hello"] with 16
    trials, quotients kept exact. *)
Lemma diffusion_in_unit_interval_witness :
  (forall p q : Q, (p <= q)%Q ->
     (@roundDouble AsciiNode.runtime p <= @roundDouble AsciiNode.runtime q)%Q) /\
  (forall z : Z, Z.abs z <= 2 ^ 53 ->
     (@roundDouble AsciiNode.runtime (inject_Z z) == inject_Z z)%Q) /\
  (forall s,
     length (@hexDecode AsciiNode.runtime
               (HashTester.hashFn AsciiNode.tester s
                  (HashTester.testingKey AsciiNode.tester))) = 32%nat) /\
  AsciiNode.hello <> [] /\ (0 < 16)%nat /\ (0 < 32)%nat /\
  Z.of_nat (32 * 8) <= 2 ^ 53 /\
  exists q : Q,
    @HashTester.diffusion AsciiNode.runtime AsciiNode.tester AsciiNode.hello 16 = Some q /\
    q = @roundDouble AsciiNode.runtime
          (@roundDouble AsciiNode.runtime
             (inject_Z (@HarnessSpec.diffusion_sum AsciiNode.runtime AsciiNode.tester
                          AsciiNode.hello 16)
              / inject_Z (Z.of_nat 16))
           / inject_Z (Z.of_nat (32 * 8))) /\
    (0 <= q <= 1)%Q.
Proof.
  assert (Hmono : forall p q : Q, (p <= q)%Q ->
            (@roundDouble AsciiNode.runtime p <= @roundDouble AsciiNode.runtime q)%Q)
    by (intros p q Hpq; exact Hpq).
  assert (Hexact : forall z : Z, Z.abs z <= 2 ^ 53 ->
            (@roundDouble AsciiNode.runtime (inject_Z z) == inject_Z z)%Q)
    by (intros z _; reflexivity).
  assert (Hlen : forall s,
            length (@hexDecode AsciiNode.runtime
                      (HashTester.hashFn AsciiNode.tester s
                         (HashTester.testingKey AsciiNode.tester))) = 32%nat)
    by (intros s; apply sea256_hex_length).
  assert (Hx : AsciiNode.hello <> []) by discriminate.
  assert (H53 : Z.of_nat (32 * 8) <= 2 ^ 53) by (vm_compute; discriminate).
  repeat (split; [assumption || lia |]).
  apply (diffusion_in_unit_interval AsciiNode.runtime AsciiNode.tester
           AsciiNode.hello 16 32 Hmono Hexact Hlen Hx); [lia | lia | exact H53].
Defined.

(** ** Preimage search *)

(** C9: [preimage (output, inputLength, attempts)] hashes the candidates it
    draws, in order, and at most [attempts] of them.  If the hash of some
    drawn candidate is [output], it returns [Found] with the first such
    candidate and the 1-based number of its draw, having hashed nothing
    after it; otherwise it returns the value [NotFound attempts], having
    hashed all [attempts] candidates.  It is a total function: exhausting
    the budget raises nothing. *)
Theorem preimage_bounded (R : Runtime) (this : HashTester.t) (output : list Z)
    (inputLength attempts : nat) (g : rng) :
  let '(r, _, hashed) := HashTester.preimage this output inputLength attempts g in
  let candidates := HarnessSpec.draws inputLength attempts g in
  let hash c := HashTester.hashFn this c (HashTester.testingKey this) in
  length candidates = attempts /\
  (length hashed <= attempts)%nat /\
  ((exists idx c,
      candidates !! idx = Some c /\ hash c = output /\
      Forall (fun y => hash y <> output) (take idx candidates) /\
      r = HashTester.Found c (S idx) /\ (S idx <= attempts)%nat /\
      rev hashed = take (S idx) candidates)
   \/
   (Forall (fun y => hash y <> output) candidates /\
    r = HashTester.NotFound attempts /\
    rev hashed = candidates)).
Proof.
  unfold HashTester.preimage.
  pose proof (preimage_loop_spec this output inputLength attempts 0 g []) as Hspec.
  destruct (HashTester.preimage_loop this output inputLength 0 attempts g [])
    as [[r g'] hashed].
  cbn [fst snd] in Hspec. cbn zeta.
  pose proof (draws_length inputLength attempts g) as Hdraws.
  split; [exact Hdraws |].
  destruct (list_find _ (HarnessSpec.draws inputLength attempts g)) as [[idx c] |] eqn:Hfind.
  - destruct Hspec as [-> ->]. rewrite app_nil_r, length_rev, rev_involutive.
    apply list_find_Some in Hfind as (Hidx & Hc & Hfirst).
    pose proof (lookup_lt_Some _ _ _ Hidx) as Hlt.
    split; [rewrite length_take; lia |].
    left. exists idx, c.
    split; [exact Hidx |]. split; [exact Hc |].
    split.
    { apply Forall_lookup. intros j y Hj.
      apply lookup_take_Some in Hj as [Hj Hji]. exact (Hfirst j y Hj Hji). }
    split; [cbn; do 2 f_equal; lia |].
    split; [lia | reflexivity].
  - destruct Hspec as [-> ->]. rewrite app_nil_r, length_rev, rev_involutive.
    apply list_find_None in Hfind.
    split; [lia |]. right. split; [exact Hfind |]. split; reflexivity.
Qed.

(** * Further properties of the hash core *)

Section RotationFacts.

Lemma testbit_u32_high X i : 0 <= X < 2 ^ 32 -> 32 <= i -> Z.testbit X i = false.
Proof.
  intros HX Hi. rewrite <- (Z.mod_small X (2 ^ 32)) by exact HX.
  apply Z.mod_pow2_bits_high. lia.
Qed.

(** Bit [i] of the rotated word is bit [i - n] of the word, around 32. *)
Lemma rotl32_testbit X n i :
  0 <= X < 2 ^ 32 -> 0 < n < 32 -> 0 <= i < 32 ->
  Z.testbit (SeaSpec.rotl32 X n) i = Z.testbit X ((i - n) mod 32).
Proof.
  intros HX Hn Hi. unfold SeaSpec.rotl32.
  rewrite Z.lor_spec, Z.testbit_mod_pow2, Z.mul_pow2_bits, Z.div_pow2_bits by lia.
  destruct (Z.ltb_spec i 32) as [_ | ?]; [| lia]. cbn [andb].
  destruct (Z.lt_ge_cases i n) as [Hlt | Hge].
  - rewrite (Z.testbit_neg_r X (i - n)) by lia. cbn [orb].
    f_equal. apply Z.mod_unique with (q := -1); lia.
  - rewrite (testbit_u32_high X (i + (32 - n))) by lia.
    rewrite orb_false_r. f_equal. symmetry. apply Z.mod_small. lia.
Qed.

Lemma rotR_rotl32 x n :
  0 < n < 32 -> Sea.rotR x n = SeaSpec.rotl32 (JS.ToUint32 x) (32 - n).
Proof.
  intros Hn. unfold Sea.rotR, SeaSpec.rotl32, JS.sub.
  rewrite fl_small by lia.
  rewrite ushr_0, ToUint32_or, ToUint32_shl by lia.
  rewrite (ToUint32_small (JS.ushr _ _)) by (apply ushr_range; lia).
  rewrite ushr_div by lia.
  replace (32 - (32 - n)) with n by lia. apply Z.lor_comm.
Qed.

Lemma rot_0 x : Sea.rotL x 0 = JS.ToUint32 x /\ Sea.rotR x 0 = JS.ToUint32 x.
Proof.
  unfold Sea.rotL, Sea.rotR.
  change (JS.sub 32 0) with 32.
  assert (E32 : JS.ushr x 32 = JS.ToUint32 x).
  { unfold JS.ushr. change (JS.shiftCount 32) with 0. apply Z.shiftr_0_r. }
  assert (S0 : JS.ToUint32 (JS.shl x 0) = JS.ToUint32 x).
  { rewrite ToUint32_shl by lia. change (2 ^ 0) with 1.
    rewrite Z.mul_1_r. apply ToUint32_idemp. }
  assert (S32 : JS.ToUint32 (JS.shl x 32) = JS.ToUint32 x).
  { unfold JS.shl. change (JS.shiftCount 32) with 0.
    rewrite Z.shiftl_0_r, ToInt32_idemp. apply ToUint32_ToInt32. }
  rewrite !ushr_0, !ToUint32_or, E32, S0, S32, ToUint32_idemp, Z.lor_diag.
  split; reflexivity.
Qed.

Lemma testbit_ToUint32_low x j :
  0 <= j < 32 -> Z.testbit (JS.ToUint32 x) j = Z.testbit x j.
Proof.
  intros Hj. rewrite testbit_ToUint32.
  destruct (Z.ltb_spec j 32); [reflexivity | lia].
Qed.

(** The bits of the two rotations. *)
Lemma rot_testbit x n i :
  0 <= n < 32 -> 0 <= i < 32 ->
  Z.testbit (Sea.rotL x n) i = Z.testbit x ((i - n) mod 32) /\
  Z.testbit (Sea.rotR x n) i = Z.testbit x ((i + n) mod 32).
Proof.
  intros Hn Hi.
  destruct (Z.eq_dec n 0) as [-> | Hn0].
  - destruct (rot_0 x) as [-> ->].
    rewrite Z.sub_0_r, Z.add_0_r, Z.mod_small, testbit_ToUint32_low by lia.
    split; reflexivity.
  - pose proof (ToUint32_range x) as HX.
    rewrite rotL_rotl32, rotR_rotl32 by lia.
    rewrite !rotl32_testbit by lia.
    rewrite !testbit_ToUint32_low by (apply Z.mod_pos_bound; lia).
    split; [reflexivity |]. f_equal.
    replace (i - (32 - n)) with (i + n + (-1) * 32) by lia.
    apply Z.mod_add. lia.
Qed.

(** Two 32-bit words with the same 32 bits are equal. *)
Lemma u32_bits_inj a b :
  0 <= a < 2 ^ 32 -> 0 <= b < 2 ^ 32 ->
  (forall i, 0 <= i < 32 -> Z.testbit a i = Z.testbit b i) -> a = b.
Proof.
  intros Ha Hb H. apply Z.bits_inj'. intros i Hi.
  destruct (Z.lt_ge_cases i 32); [apply H; lia |].
  rewrite !testbit_u32_high by lia. reflexivity.
Qed.

End RotationFacts.

(** X1 (rotL, rotR): for a rotation amount [0 <= n < 32], [rotL x n] and
    [rotR x n] are 32-bit words whose bit [i] is bit [i - n], respectively
    [i + n], of [x], the positions taken around 32: circular rotations of
    the low 32 bits of [x]. *)
Theorem rot_is_circular (x n : Z) :
  0 <= n < 32 ->
  0 <= Sea.rotL x n < 2 ^ 32 /\ 0 <= Sea.rotR x n < 2 ^ 32 /\
  forall i, 0 <= i < 32 ->
    Z.testbit (Sea.rotL x n) i = Z.testbit x ((i - n) mod 32) /\
    Z.testbit (Sea.rotR x n) i = Z.testbit x ((i + n) mod 32).
Proof.
  intros Hn.
  split; [apply rotL_range |]. split; [apply rotR_range |].
  intros i Hi. apply rot_testbit; assumption.
Qed.

(** X1 at the left rotation amount of the configuration: bit 4 of the
    rotated word is bit 31 of the word. *)
Lemma rot_is_circular_witness :
  0 <= 5 < 32 /\
  Z.testbit (Sea.rotL 0x80000001 5) 4 = Z.testbit 0x80000001 ((4 - 5) mod 32).
Proof.
  assert (Hn : 0 <= 5 < 32) by lia.
  assert (Hi : 0 <= 4 < 32) by lia.
  split; [exact Hn |].
  exact (proj1 (proj2 (proj2 (rot_is_circular 0x80000001 5 Hn)) 4 Hi)).
Defined.

(** X2 (rotL, rotR): the two rotations undo each other: rotating left and
    then right by the same amount [0 <= n < 32], or right and then left,
    gives back the low 32 bits of the number. *)
Theorem rot_round_trip (x n : Z) :
  0 <= n < 32 ->
  Sea.rotR (Sea.rotL x n) n = JS.ToUint32 x /\
  Sea.rotL (Sea.rotR x n) n = JS.ToUint32 x.
Proof.
  intros Hn.
  split; apply u32_bits_inj; try apply rotL_range; try apply rotR_range;
    try apply ToUint32_range; intros i Hi.
  - destruct (rot_testbit (Sea.rotL x n) n i Hn Hi) as [_ ->].
    destruct (rot_testbit x n ((i + n) mod 32) Hn
                ltac:(apply Z.mod_pos_bound; lia)) as [-> _].
    rewrite testbit_ToUint32_low by lia. f_equal.
    rewrite Zminus_mod_idemp_l. replace (i + n - n) with i by lia.
    apply Z.mod_small. lia.
  - destruct (rot_testbit (Sea.rotR x n) n i Hn Hi) as [-> _].
    destruct (rot_testbit x n ((i - n) mod 32) Hn
                ltac:(apply Z.mod_pos_bound; lia)) as [_ ->].
    rewrite testbit_ToUint32_low by lia. f_equal.
    rewrite Zplus_mod_idemp_l. replace (i - n + n) with i by lia.
    apply Z.mod_small. lia.
Qed.

(** X2 on the right rotation amount of the configuration. *)
Lemma rot_round_trip_witness :
  0 <= 3 < 32 /\ Sea.rotR (Sea.rotL 0xdeadbeef 3) 3 = JS.ToUint32 0xdeadbeef.
Proof.
  assert (Hn : 0 <= 3 < 32) by lia.
  split; [exact Hn |].
  exact (proj1 (rot_round_trip 0xdeadbeef 3 Hn)).
Defined.

(** X3 (zetaValue): modulo 2^32, [zeta] is the bitwise OR of its
    operands: [(alpha ^ beta) + (alpha & beta)] has the low 32 bits of
    [alpha | beta]. *)
Theorem zetaValue_is_or (alpha beta : Z) :
  JS.ToUint32 (Sea.zetaValue alpha beta)
  = Z.lor (JS.ToUint32 alpha) (JS.ToUint32 beta).
Proof.
  rewrite zetaValue_signed, zeta_signed_exact. unfold SeaSpec.zeta_exact.
  rewrite <- Z.sub_lor_land, Z.sub_add. apply ToUint32_lor.
Qed.

(** X4 (gammaValue): whatever its operands, the non-linear step returns a
    submask of the constant [collapse]: a number between 0 and [collapse]
    all of whose set bits are set in [collapse]; it is a multiple of 8. *)
Theorem gammaValue_within_collapse (alpha beta u : Z) :
  0 <= Sea.gammaValue alpha beta u <= Sea.collapse (Sea.nlConstants Sea.config) /\
  Z.land (Sea.gammaValue alpha beta u) (Sea.collapse (Sea.nlConstants Sea.config))
  = Sea.gammaValue alpha beta u /\
  Sea.gammaValue alpha beta u mod 8 = 0.
Proof.
  unfold Sea.gammaValue.
  cbn [Sea.nlConstants Sea.config Sea.scale Sea.grow Sea.flip Sea.collapse Sea.nlShift].
  rewrite wrap32_ToUint32, ToUint32_and, (ToUint32_small 608135816) by lia.
  match goal with
  | |- context [JS.ToUint32 (Sea.rotL ?a ?b)] =>
      generalize (ToUint32_range (Sea.rotL a b));
      generalize (JS.ToUint32 (Sea.rotL a b))
  end.
  intros Z3 HZ3.
  assert (Hle : Z.land Z3 608135816 <= 608135816).
  { rewrite <- (Z2N.id Z3), <- (Z2N.id 608135816) at 1 by lia.
    rewrite <- N2Z.inj_land.
    pose proof (N.land_le_r (Z.to_N Z3) (Z.to_N 608135816)). lia. }
  assert (H0 : 0 <= Z.land Z3 608135816) by (apply Z.land_nonneg; lia).
  split; [lia |]. split.
  - rewrite <- Z.land_assoc, Z.land_diag. reflexivity.
  - change 8 with (2 ^ 3). rewrite <- Z.land_ones, <- Z.land_assoc by lia.
    change (Z.land 608135816 (Z.ones 3)) with 0. apply Z.land_0_r.
Qed.

Section StreamFacts.

Import Sea StateSpec.

(** Two keys that agree at the positions a run of the loop reads give
    the same run. *)
Lemma foldl_absorb_ext key key' bytes :
  forall state i,
    (forall p, (i <= p < i + length bytes)%nat -> shiftValue key p = shiftValue key' p) ->
    foldl (absorb key) (state, i) bytes = foldl (absorb key') (state, i) bytes.
Proof.
  induction bytes as [| u rest IH]; intros state i Hk; [reflexivity |].
  cbn [foldl]. rewrite !absorb_unfold.
  rewrite (Hk i) by (cbn [length]; lia).
  apply IH. intros p Hp. apply Hk. cbn [length]. lia.
Qed.

Lemma be32_inj v w : u32 v -> u32 w -> be32 v = be32 w -> v = w.
Proof.
  unfold u32, be32. intros Hv Hw E.
  injection E as E3 E2 E1 E0.
  change (2 ^ 32) with 4294967296 in *. change (2 ^ 24) with 16777216 in *.
  change (2 ^ 16) with 65536 in *. change (2 ^ 8) with 256 in *.
  Z.to_euclidean_division_equations. lia.
Qed.

Lemma flat_map_be32_inj s s' :
  Forall u32 s -> Forall u32 s' ->
  flat_map be32 s = flat_map be32 s' -> s = s'.
Proof.
  intros Hs. revert s'. induction Hs as [| v s Hv Hs IH]; intros s' Hs' E.
  - destruct Hs' as [| w s' Hw Hs']; [reflexivity |]. discriminate E.
  - destruct Hs' as [| w s' Hw Hs']; [discriminate E |].
    cbn [flat_map] in E.
    unfold be32 at 1 3 in E. cbn [app] in E.
    injection E as E3 E2 E1 E0 Et.
    f_equal; [| apply IH; assumption].
    apply be32_inj; [assumption | assumption |].
    unfold be32. rewrite E3, E2, E1, E0. reflexivity.
Qed.

End StreamFacts.

(** X5 (sea256Raw, the loop over the input): hashing is incremental.  The
    state after the input [x ++ y] is reached from the state after [x]
    by running the loop over [y] with the position counter continuing at
    [length x + 1]; nothing else of [x] is kept. *)
Theorem finalState_app (x y key : list byte) :
  Sea.finalState (x ++ y) key
  = fst (foldl (Sea.absorb key) (Sea.finalState x key, S (length x)) y).
Proof.
  unfold Sea.finalState. cbn zeta. rewrite foldl_app.
  destruct (absorb_all_inv key x (Sea.initialValues Sea.config) 1 initialValues_u32)
    as (_ & _ & Hi). cbn zeta in Hi.
  destruct (foldl (Sea.absorb key) (Sea.initialValues Sea.config, 1%nat) x) as [s i].
  cbn [fst snd] in *. subst i. reflexivity.
Qed.

(** X6 (shiftValue, sea256Raw): an input shorter than the key does not
    read all of it.  Position counting starts at 1, so for an input of
    [n] bytes and keys of one length above [n], only the key bytes at the
    indices 1 to [n] reach the digest: byte 0 and the bytes after index
    [n] are never read. *)
Theorem key_bytes_unread (x k k' : list byte) :
  length k = length k' -> (length x < length k)%nat ->
  (forall j, (1 <= j <= length x)%nat -> k !! j = k' !! j) ->
  Sea.sea256Raw x k = Sea.sea256Raw x k'.
Proof.
  intros Hlen Hx Hk. apply sea256Raw_of_state.
  unfold Sea.finalState. cbn zeta. f_equal.
  apply foldl_absorb_ext. intros p Hp.
  rewrite !shiftValue_lookup, <- Hlen, Nat.mod_small by lia.
  rewrite Hk by lia. reflexivity.
Qed.

(** X6 on the input ["ab"]: the keys ["kxyz"] and ["Qxy!"] differ at the
    indices 0 and 3 only. *)
Lemma key_bytes_unread_witness :
  length ["k"; "x"; "y"; "z"]%byte = length ["Q"; "x"; "y"; "!"]%byte /\
  (length ["a"; "b"]%byte < length ["k"; "x"; "y"; "z"]%byte)%nat /\
  Sea.sea256Raw ["a"; "b"]%byte ["k"; "x"; "y"; "z"]%byte
  = Sea.sea256Raw ["a"; "b"]%byte ["Q"; "x"; "y"; "!"]%byte.
Proof.
  assert (Hlen : length ["k"; "x"; "y"; "z"]%byte = length ["Q"; "x"; "y"; "!"]%byte)
    by reflexivity.
  assert (Hx : (length ["a"; "b"]%byte < length ["k"; "x"; "y"; "z"]%byte)%nat)
    by (cbn [length]; lia).
  split; [exact Hlen |]. split; [exact Hx |].
  apply (key_bytes_unread ["a"; "b"]%byte ["k"; "x"; "y"; "z"]%byte
           ["Q"; "x"; "y"; "!"]%byte Hlen Hx).
  intros j Hj. cbn [length] in Hj.
  destruct j as [| [| [| j]]]; [lia | reflexivity | reflexivity | lia].
Defined.

(** X7 (sea256Raw, the serialization): the digest loses nothing of the
    final state.  Two digests are equal exactly when the final states
    of the two runs are: the 32 bytes determine the 8 words. *)
Theorem digest_determines_state (x k x' k' : list byte) :
  Sea.sea256Raw x k = Sea.sea256Raw x' k' <->
  Sea.finalState x k = Sea.finalState x' k'.
Proof.
  split.
  - intros E. apply (f_equal (map byte_val)) in E.
    rewrite !sea256Raw_be32 in E.
    apply flat_map_be32_inj in E; [exact E | apply finalState_u32 ..].
  - intros E. unfold Sea.sea256Raw. rewrite E. reflexivity.
Qed.

(** * Further properties of the harness *)

Section DistanceFacts.

Import HashTester HarnessSpec.

Lemma byte_val_inj x y : byte_val x = byte_val y -> x = y.
Proof.
  unfold byte_val. intros E. apply N2Z.inj in E.
  pose proof (Byte.of_to_N x) as Hx. pose proof (Byte.of_to_N y) as Hy.
  rewrite E in Hx. congruence.
Qed.

Lemma popcount8_bits x :
  popcount8 x = foldr (fun i s => Z.b2z (Z.testbit x (Z.of_nat i)) + s) 0 (seq 0 8).
Proof. reflexivity. Qed.

Lemma popcount8_zero z : 0 <= z < 256 -> popcount8 z = 0 -> z = 0.
Proof.
  intros Hz.
  assert (T : forallb (fun n => implb (popcount8 (Z.of_nat n) =? 0) (Z.of_nat n =? 0))
                (seq 0 256) = true) by (vm_compute; reflexivity).
  rewrite forallb_forall in T.
  specialize (T (Z.to_nat z)). rewrite Z2Nat.id in T by lia.
  intros E. rewrite E in T. cbn [Z.eqb implb] in T.
  apply Z.eqb_eq, T, in_seq. lia.
Qed.

Lemma differing_bits_comm x y : differing_bits x y = differing_bits y x.
Proof. unfold differing_bits. rewrite Z.lxor_comm. reflexivity. Qed.

Lemma differing_bits_nonneg x y : 0 <= differing_bits x y.
Proof. apply popcount8_range. Qed.

Lemma differing_bits_zero x y : differing_bits x y = 0 <-> x = y.
Proof.
  unfold differing_bits. split.
  - intros E. apply byte_val_inj, Z.lxor_eq.
    apply popcount8_zero; [| exact E].
    apply lxor_byte_range; apply byte_val_range.
  - intros ->. rewrite Z.lxor_nilpotent. reflexivity.
Qed.

Lemma differing_bits_triangle x y z :
  differing_bits x z <= differing_bits x y + differing_bits y z.
Proof.
  unfold differing_bits. rewrite !popcount8_bits.
  generalize (byte_val x) (byte_val y) (byte_val z). intros a b c.
  induction (seq 0 8) as [| i l IH]; [cbn [foldr]; lia |].
  cbn [foldr]. rewrite !Z.lxor_spec.
  destruct (Z.testbit a (Z.of_nat i)), (Z.testbit b (Z.of_nat i)),
    (Z.testbit c (Z.of_nat i)); cbn [xorb Z.b2z]; lia.
Qed.

Lemma bits_at_past a b j :
  (length a <= j)%nat -> (length b <= j)%nat -> bits_at a b j = 0.
Proof.
  intros Ha Hb. unfold bits_at.
  rewrite !lookup_ge_None_2 by lia. reflexivity.
Qed.

Lemma bits_upto_S n a b : bits_upto (S n) a b = bits_upto n a b + bits_at a b n.
Proof.
  unfold bits_upto. rewrite seq_S, foldr_app. cbn [foldr Nat.add].
  generalize (bits_at a b n). intros d.
  induction (seq 0 n) as [| j l IH]; cbn [foldr]; [lia |]. rewrite IH. lia.
Qed.

Lemma bits_upto_mono n m a b : (n <= m)%nat -> bits_upto n a b <= bits_upto m a b.
Proof.
  induction 1 as [| m _ IH]; [lia |].
  rewrite bits_upto_S. pose proof (differing_bits_nonneg
    (default "000"%byte (a !! m)) (default "000"%byte (b !! m))).
  unfold bits_at. lia.
Qed.

(** Positions past the end of both buffers add nothing. *)
Lemma bits_upto_past n m a b :
  (length a <= n)%nat -> (length b <= n)%nat -> (n <= m)%nat ->
  bits_upto m a b = bits_upto n a b.
Proof.
  intros Ha Hb. induction 1 as [| m Hm IH]; [reflexivity |].
  rewrite bits_upto_S, bits_at_past by lia. lia.
Qed.

Lemma hammingDistance_bytes_upto a b :
  hammingDistance_bytes a b = bits_upto (length a) a b.
Proof.
  rewrite hammingDistance_bytes_resize.
  rewrite <- (resize_all a "000"%byte) at 1.
  symmetry. apply sum_differing_resize.
Qed.

Lemma bitDiff_bytes_upto a b :
  bitDiff_bytes a b = bits_upto (Nat.max (length a) (length b)) a b.
Proof. rewrite bitDiff_bytes_resize. symmetry. apply sum_differing_resize. Qed.

Lemma bits_upto_comm n a b : bits_upto n a b = bits_upto n b a.
Proof.
  unfold bits_upto. induction (seq 0 n) as [| j l IH]; [reflexivity |].
  cbn [foldr]. rewrite IH. unfold bits_at. rewrite differing_bits_comm. reflexivity.
Qed.

Lemma bits_upto_triangle n a b c :
  bits_upto n a c <= bits_upto n a b + bits_upto n b c.
Proof.
  unfold bits_upto. induction (seq 0 n) as [| j l IH]; [cbn [foldr]; lia |].
  cbn [foldr]. unfold bits_at at 1 3 5.
  pose proof (differing_bits_triangle (default "000"%byte (a !! j))
    (default "000"%byte (b !! j)) (default "000"%byte (c !! j))). lia.
Qed.

Lemma bits_upto_nonneg n a b : 0 <= bits_upto n a b.
Proof. pose proof (bits_upto_mono 0 n a b ltac:(lia)) as H. exact H. Qed.

Lemma bits_upto_zero n a b :
  bits_upto n a b = 0 <-> resize n "000"%byte a = resize n "000"%byte b.
Proof.
  revert a b. induction n as [| n IH]; intros a b.
  - rewrite !resize_0. split; reflexivity.
  - assert (Hstep : bits_upto (S n) a b
                    = bits_at a b 0 + bits_upto n (drop 1 a) (drop 1 b)).
    { unfold bits_upto. rewrite <- Nat.add_1_r at 1.
      rewrite Nat.add_comm. cbn [Nat.add seq foldr]. f_equal.
      rewrite <- seq_shift, foldr_fmap.
      apply foldr_ext; [| reflexivity | reflexivity].
      intros j s. unfold bits_at, compose. rewrite !lookup_drop. reflexivity. }
    rewrite Hstep.
    pose proof (bits_upto_nonneg n (drop 1 a) (drop 1 b)) as Hn.
    pose proof (differing_bits_nonneg (default "000"%byte (a !! 0%nat))
                  (default "000"%byte (b !! 0%nat))) as H0. fold (bits_at a b 0) in H0.
    assert (Hr : forall l : list byte,
               resize (S n) "000"%byte l
               = default "000"%byte (l !! 0%nat) :: resize n "000"%byte (drop 1 l)).
    { intros [| x l]; [| reflexivity].
      rewrite drop_nil, !resize_nil. reflexivity. }
    rewrite !Hr. split.
    + intros E. assert (E0 : bits_at a b 0 = 0) by lia.
      assert (En : bits_upto n (drop 1 a) (drop 1 b) = 0) by lia.
      apply differing_bits_zero in E0. apply IH in En. congruence.
    + intros E. injection E as E0 En.
      apply differing_bits_zero in E0. apply IH in En.
      unfold bits_at at 1. lia.
Qed.

Lemma distance_to_self (a : list byte) :
  bitDiff_bytes a a = 0 /\ hammingDistance_bytes a a = 0.
Proof.
  rewrite hammingDistance_bytes_upto, bitDiff_bytes_upto.
  split; apply bits_upto_zero; reflexivity.
Qed.

End DistanceFacts.

(** X8 (bitDiff): [bitDiff], on the decoded buffers, is a distance on
    buffers read up to trailing zero bytes: it is never negative, it is
    symmetric, it satisfies the triangle inequality, and it is 0 exactly
    when the two buffers, the shorter one zero-extended, are equal. *)
Theorem bitDiff_is_a_distance (a b c : list byte) :
  0 <= HashTester.bitDiff_bytes a b /\
  HashTester.bitDiff_bytes a b = HashTester.bitDiff_bytes b a /\
  HashTester.bitDiff_bytes a c
    <= HashTester.bitDiff_bytes a b + HashTester.bitDiff_bytes b c /\
  (HashTester.bitDiff_bytes a b = 0 <->
   a ++ replicate (Nat.max (length a) (length b) - length a) "000"%byte
   = b ++ replicate (Nat.max (length a) (length b) - length b) "000"%byte).
Proof.
  rewrite !bitDiff_bytes_upto.
  split; [apply bits_upto_nonneg |].
  split; [rewrite (Nat.max_comm (length b)); apply bits_upto_comm |].
  split.
  - set (n := Nat.max (length a) (Nat.max (length b) (length c))).
    rewrite <- (bits_upto_past _ n a c), <- (bits_upto_past _ n a b),
      <- (bits_upto_past _ n b c) by (unfold n; lia).
    apply bits_upto_triangle.
  - rewrite bits_upto_zero, !resize_ge by lia. reflexivity.
Qed.

(** X9 (hammingDistance, bitDiff): the two distances of the harness
    compare.  [hammingDistance] never exceeds [bitDiff]; they agree when
    the second buffer is not longer than the first, and the gap is the
    number of set bits the second buffer has past the end of the first,
    which [hammingDistance] does not read. *)
Theorem hammingDistance_le_bitDiff (a b : list byte) :
  HashTester.hammingDistance_bytes a b <= HashTester.bitDiff_bytes a b /\
  ((length b <= length a)%nat ->
   HashTester.hammingDistance_bytes a b = HashTester.bitDiff_bytes a b) /\
  HashTester.bitDiff_bytes a b
  = HashTester.hammingDistance_bytes a b
    + HashTester.bitDiff_bytes [] (drop (length a) b).
Proof.
  rewrite hammingDistance_bytes_upto, !bitDiff_bytes_upto.
  split; [apply bits_upto_mono; lia |].
  split; [intros Hlen; rewrite Nat.max_l by lia; reflexivity |].
  cbn [length]. rewrite Nat.max_0_l, length_drop.
  destruct (Nat.le_ge_cases (length b) (length a)) as [Hle | Hge].
  - rewrite Nat.max_l by lia.
    replace (length b - length a)%nat with 0%nat by lia.
    unfold HarnessSpec.bits_upto at 3. cbn [seq foldr]. lia.
  - rewrite Nat.max_r by lia.
    replace (length b) with (length a + (length b - length a))%nat at 1 by lia.
    generalize (length b - length a)%nat. intros m.
    induction m as [| m IH]; [rewrite Nat.add_0_r; unfold HarnessSpec.bits_upto at 3; cbn [seq foldr]; lia |].
    rewrite Nat.add_succ_r, !bits_upto_S, IH.
    enough (HarnessSpec.bits_at a b (length a + m) = HarnessSpec.bits_at [] (drop (length a) b) m) by lia.
    unfold HarnessSpec.bits_at. rewrite lookup_drop, lookup_nil, lookup_ge_None_2 by lia.
    reflexivity.
Qed.

(** X9 on the buffers [0f 00] and [f0]. *)
Lemma hammingDistance_le_bitDiff_witness :
  (length ["240"%byte] <= length ["015"%byte; "000"%byte])%nat /\
  HashTester.hammingDistance_bytes ["015"%byte; "000"%byte] ["240"%byte]
  = HashTester.bitDiff_bytes ["015"%byte; "000"%byte] ["240"%byte].
Proof.
  assert (Hlen : (length ["240"%byte] <= length ["015"%byte; "000"%byte])%nat)
    by (cbn [length]; lia).
  split; [exact Hlen |].
  exact (proj1 (proj2 (hammingDistance_le_bitDiff
                         ["015"%byte; "000"%byte] ["240"%byte])) Hlen).
Defined.

Section FlipFacts.

Import HashTester HarnessSpec.

Lemma popcount8_pow2 k : (k < 8)%nat -> popcount8 (2 ^ Z.of_nat k) = 1.
Proof.
  intros Hk.
  do 8 (destruct k as [| k]; [reflexivity |]). lia.
Qed.

Lemma shl_1_small k : (k < 8)%nat -> JS.shl 1 (Z.of_nat k) = 2 ^ Z.of_nat k.
Proof.
  intros Hk.
  do 8 (destruct k as [| k]; [vm_compute; reflexivity |]). lia.
Qed.

Lemma pow2_byte k : (k < 8)%nat -> 0 <= 2 ^ Z.of_nat k < 256.
Proof.
  intros Hk. split; [apply Z.pow_nonneg; lia |].
  change 256 with (2 ^ 8). apply Z.pow_lt_mono_r; lia.
Qed.

(** The byte [flipBit] stores in place of [b]. *)
Lemma flipped_byte (b : byte) k :
  (k < 8)%nat ->
  byte_val (ToUint8 (JS.xor (byte_val b) (JS.shl 1 (Z.of_nat k))))
  = Z.lxor (byte_val b) (2 ^ Z.of_nat k).
Proof.
  intros Hk. pose proof (byte_val_range b) as Hb. pose proof (pow2_byte k Hk) as Hp.
  rewrite shl_1_small by exact Hk.
  unfold JS.xor. rewrite !ToInt32_small by lia.
  rewrite byte_val_ToUint8. apply Z.mod_small.
  apply lxor_byte_range; assumption.
Qed.

Lemma bits_at_same a j : bits_at a a j = 0.
Proof. unfold bits_at. apply differing_bits_zero. reflexivity. Qed.

(** Two buffers that differ at one index only. *)
Lemma bits_upto_single n (a b : list byte) i :
  (i < n)%nat -> (forall j, j <> i -> a !! j = b !! j) ->
  bits_upto n a b = bits_at a b i.
Proof.
  intros Hi Hsame.
  assert (Hz : forall j, j <> i -> bits_at a b j = 0).
  { intros j Hj. unfold bits_at. rewrite (Hsame j Hj).
    apply differing_bits_zero. reflexivity. }
  assert (Hlow : forall m, (m <= i)%nat -> bits_upto m a b = 0).
  { induction m as [| m IH]; intros Hm; [reflexivity |].
    rewrite bits_upto_S, IH, Hz by lia. reflexivity. }
  induction n as [| n IH]; [lia |].
  rewrite bits_upto_S.
  destruct (Nat.eq_dec n i) as [-> | Hn].
  - rewrite Hlow by lia. lia.
  - rewrite IH, (Hz n) by lia. lia.
Qed.

End FlipFacts.

(** X10 (flipBit): what [flipBit] does to the UTF-8 bytes of its input.
    A bit position inside the buffer toggles exactly that bit: byte
    [pos / 8] is XOR-ed with [2 ^ (pos mod 8)] (bit 0 is the least
    significant one), every other byte is kept, and the new buffer is at
    bit distance 1 from the old one.  A position past the buffer, like the
    NaN position, changes nothing: the store is dropped, the buffer is not
    extended, and the input is only re-decoded. *)
Theorem flipBit_toggles_one_bit (R : Runtime) (input : list Z) (pos : nat) :
  ((pos < 8 * length (utf8Encode input))%nat ->
   exists b b' : byte,
     utf8Encode input !! (pos / 8)%nat = Some b /\
     byte_val b' = Z.lxor (byte_val b) (2 ^ Z.of_nat (pos mod 8)) /\
     HashTester.flipBit input (Some pos)
     = utf8Decode (<[(pos / 8)%nat := b']> (utf8Encode input)) /\
     HashTester.bitDiff_bytes (utf8Encode input)
       (<[(pos / 8)%nat := b']> (utf8Encode input)) = 1) /\
  ((8 * length (utf8Encode input) <= pos)%nat ->
   HashTester.flipBit input (Some pos) = utf8Decode (utf8Encode input)) /\
  HashTester.flipBit input None = utf8Decode (utf8Encode input).
Proof.
  set (buf := utf8Encode input).
  assert (Hk : (pos mod 8 < 8)%nat) by (apply Nat.mod_upper_bound; lia).
  split; [| split; [| reflexivity]].
  - intros Hpos.
    assert (Hi : (pos / 8 < length buf)%nat)
      by (apply Nat.Div0.div_lt_upper_bound; lia).
    destruct (lookup_lt_is_Some_2 buf (pos / 8)%nat Hi) as [b Hb].
    set (b' := ToUint8 (JS.xor (byte_val b) (JS.shl 1 (Z.of_nat (pos mod 8))))).
    exists b, b'.
    split; [exact Hb |].
    split; [apply flipped_byte; exact Hk |].
    split.
    + unfold HashTester.flipBit, buf_set, buf_get. cbn zeta. fold buf.
      rewrite Hb. reflexivity.
    + rewrite bitDiff_bytes_upto, length_insert, Nat.max_id.
      rewrite (bits_upto_single _ _ _ (pos / 8)%nat Hi).
      * unfold HarnessSpec.bits_at. rewrite list_lookup_insert_eq by exact Hi.
        rewrite Hb. cbn [default from_option]. unfold id, HarnessSpec.differing_bits.
        unfold b'. rewrite flipped_byte by exact Hk.
        rewrite <- Z.lxor_assoc, Z.lxor_nilpotent, Z.lxor_0_l.
        apply popcount8_pow2. exact Hk.
      * intros j Hj. rewrite list_lookup_insert_ne by congruence. reflexivity.
  - intros Hpos.
    assert (Hi : (length buf <= pos / 8)%nat)
      by (apply Nat.div_le_lower_bound; lia).
    unfold HashTester.flipBit, buf_set. cbn zeta. fold buf.
    rewrite list_insert_ge by exact Hi. reflexivity.
Qed.

(** X10 on the string ["hello"]: bit 9 is bit 1 of the byte [e]. *)
Lemma flipBit_toggles_one_bit_witness :
  (9 < 8 * length (@utf8Encode AsciiNode.runtime AsciiNode.hello))%nat /\
  exists b b' : byte,
    @utf8Encode AsciiNode.runtime AsciiNode.hello !! (9 / 8)%nat = Some b /\
    byte_val b' = Z.lxor (byte_val b) (2 ^ Z.of_nat (9 mod 8)) /\
    @HashTester.flipBit AsciiNode.runtime AsciiNode.hello (Some 9%nat)
    = @utf8Decode AsciiNode.runtime
        (<[(9 / 8)%nat := b']> (@utf8Encode AsciiNode.runtime AsciiNode.hello)) /\
    HashTester.bitDiff_bytes (@utf8Encode AsciiNode.runtime AsciiNode.hello)
      (<[(9 / 8)%nat := b']> (@utf8Encode AsciiNode.runtime AsciiNode.hello)) = 1.
Proof.
  assert (Hpos : (9 < 8 * length (@utf8Encode AsciiNode.runtime AsciiNode.hello))%nat)
    by (vm_compute; lia).
  split; [exact Hpos |].
  exact (proj1 (flipBit_toggles_one_bit AsciiNode.runtime AsciiNode.hello 9) Hpos).
Defined.

Section TrialFacts.

Import HashTester HarnessSpec.

Context `{Runtime}.
Variable this : t.

Lemma sum_snoc (l : list Z) x : foldr Z.add 0 (l ++ [x]) = foldr Z.add 0 l + x.
Proof. induction l as [| y l IH]; cbn [foldr app]; lia. Qed.

Lemma hammingDistance_range hex1 hex2 :
  0 <= hammingDistance hex1 hex2 <= 8 * Z.of_nat (length (hexDecode hex1)).
Proof.
  unfold hammingDistance. cbn zeta.
  rewrite hammingDistance_bytes_resize. apply hamming_range.
Qed.

Lemma Qeq_bool_inject_nat n :
  Qeq_bool (inject_Z (Z.of_nat n)) 0 = true <-> n = 0%nat.
Proof.
  destruct n as [| n]; [split; reflexivity |].
  rewrite Qeq_bool_inject_pos by lia. split; [discriminate | lia].
Qed.

Lemma fdiv_None a n : fdiv a (inject_Z (Z.of_nat n)) = None <-> n = 0%nat.
Proof.
  unfold fdiv. rewrite <- Qeq_bool_inject_nat.
  destruct (Qeq_bool _ 0); split; congruence.
Qed.

(** The loop of [collision], from any state. *)
Lemma collision_loop hexEncode n :
  forall i (seen : gset (list Z)) (c : nat) (g : rng),
    let hashes :=
      map (fun x => hashFn this x (testingKey this)) (hexDraws hexEncode n g) in
    let '(seen', c', _) :=
      for_loop
        (fun (_ : nat) '(seen, collisions, g) =>
           let '(bytes, g) := randomBytes (16 / 2) g in
           let input := hexEncode bytes in
           let hash := hashFn this input (testingKey this) in
           if decide (hash ∈ seen)
           then (seen, S collisions, g)
           else ({[hash]} ∪ seen, collisions, g))
        i n (seen, c, g) in
    seen' = seen ∪ list_to_set hashes /\
    (c' + size seen' = c + size seen + n)%nat.
Proof.
  induction n as [| n IH]; intros i seen c g.
  - cbn [for_loop hexDraws map list_to_set].
    split; [rewrite union_empty_r_L; reflexivity | lia].
  - rewrite for_loop_S. cbn [hexDraws].
    change (16 / 2)%nat with 8%nat.
    destruct (randomBytes 8 g) as [bytes g1]. cbn [map list_to_set].
    set (h := hashFn this (hexEncode bytes) (testingKey this)).
    destruct (decide (h ∈ seen)) as [Hin | Hout].
    + specialize (IH (S i) seen (S c) g1). cbn zeta in IH.
      destruct (for_loop _ (S i) n (seen, S c, g1)) as [[seen' c'] g'].
      destruct IH as [-> Hc]. split; [| lia].
      rewrite (assoc_L (∪) seen {[h]}), (comm_L (∪) seen {[h]}),
        (subseteq_union_1_L {[h]} seen);
        [reflexivity | apply singleton_subseteq_l; exact Hin].
    + specialize (IH (S i) ({[h]} ∪ seen) c g1). cbn zeta in IH.
      destruct (for_loop _ (S i) n ({[h]} ∪ seen, c, g1)) as [[seen' c'] g'].
      destruct IH as [-> Hc]. split.
      * rewrite (comm_L (∪) {[h]} seen), <- (assoc_L (∪)). reflexivity.
      * rewrite (size_union {[h]} seen), size_singleton in Hc
          by (apply disjoint_singleton_l; exact Hout). lia.
Qed.

Lemma hexDraws_length hexEncode n g : length (hexDraws hexEncode n g) = n.
Proof.
  revert g. induction n as [| n IH]; intros g; [reflexivity |].
  cbn [hexDraws]. destruct (randomBytes 8 g) as [bytes g'].
  cbn [length]. rewrite IH. reflexivity.
Qed.

Lemma size_list_to_set_le (l : list (list Z)) :
  (size (list_to_set l : gset (list Z)) <= length l)%nat.
Proof.
  induction l as [| x l IH]; [cbn [list_to_set length]; rewrite size_empty; lia |].
  cbn [list_to_set length].
  pose proof (size_union_alt ({[x]} : gset (list Z)) (list_to_set l)) as E.
  rewrite E, size_singleton.
  pose proof (subseteq_size (list_to_set l ∖ {[x]}) (list_to_set l : gset (list Z))
                (subseteq_difference_l _ _ _ (reflexivity _))). lia.
Qed.

Lemma size_list_to_set_NoDup (l : list (list Z)) :
  size (list_to_set l : gset (list Z)) = length l <-> NoDup l.
Proof.
  split; [| apply size_list_to_set].
  induction l as [| x l IH]; intros E; [constructor |].
  cbn [list_to_set length] in E.
  pose proof (size_list_to_set_le l) as Hle.
  destruct (decide (x ∈ l)) as [Hin | Hout].
  - assert (Es : ({[x]} ∪ list_to_set l : gset (list Z)) = list_to_set l).
    { apply subseteq_union_1_L, singleton_subseteq_l, elem_of_list_to_set. exact Hin. }
    rewrite Es in E. lia.
  - rewrite size_union, size_singleton in E
      by (apply disjoint_singleton_l; rewrite elem_of_list_to_set; exact Hout).
    constructor; [exact Hout | apply IH; lia].
Qed.

(** A larger budget repeats a successful search. *)
Lemma preimage_loop_mono output inputLength todo :
  forall todo' i g hashed r g' hashed',
    preimage_loop this output inputLength i todo g hashed = (Some r, g', hashed') ->
    (todo <= todo')%nat ->
    preimage_loop this output inputLength i todo' g hashed = (Some r, g', hashed').
Proof.
  induction todo as [| todo IH]; intros todo' i g hashed r g' hashed' E Hle.
  - cbn [preimage_loop] in E. discriminate E.
  - destruct todo' as [| todo']; [lia |].
    cbn [preimage_loop] in *.
    destruct (randomBytes inputLength g) as [bytes g1].
    destruct (decide (hashFn this (utf8Decode bytes) (testingKey this) = output));
      [exact E |].
    apply IH; [exact E | lia].
Qed.

End TrialFacts.

(** X11 (avalanche): what [avalanche] reports, for any hash function and
    any generator.  [bits] holds one distance per trial, [flips] in all;
    each lies between 0 and the number of bits of the decoded digest of
    the unflipped input, whatever the digests of the flipped inputs are;
    [avg] is the sum of [bits] divided by [flips], and it is not a finite
    number exactly when [flips] is 0. *)
Theorem avalanche_report (R : Runtime) (this : HashTester.t) (prng : Type)
    (mathRandom : prng -> Q * prng) (input : list Z) (flips : nat) (s : prng) :
  let r := fst (HashTester.avalanche this mathRandom input flips s) in
  let L := length (hexDecode (HashTester.hashFn this input (HashTester.testingKey this))) in
  length (HashTester.bits r) = flips /\
  Forall (fun d => 0 <= d <= 8 * Z.of_nat L) (HashTester.bits r) /\
  HashTester.avg r
  = HashTester.fdiv (inject_Z (foldr Z.add 0 (HashTester.bits r)))
      (inject_Z (Z.of_nat flips)) /\
  (HashTester.avg r = None <-> flips = 0%nat).
Proof.
  cbn zeta. unfold HashTester.avalanche. cbn zeta.
  set (original := HashTester.hashFn this input (HashTester.testingKey this)).
  set (L := length (hexDecode original)).
  pose (P := fun (j : nat) (a : Z * list Z * prng) =>
               length a.1.2 = j /\
               Forall (fun d => 0 <= d <= 8 * Z.of_nat L) a.1.2 /\
               a.1.1 = foldr Z.add 0 a.1.2).
  match goal with
  | |- context [for_loop ?body 0%nat flips ?init] =>
      assert (HP : P (0 + flips)%nat (for_loop body 0%nat flips init));
      [apply for_loop_inv | destruct (for_loop body 0%nat flips init) as [[total distances] s']]
  end.
  - unfold P. cbn [fst snd length foldr]. repeat split. constructor.
  - intros j [[t d] s0] _ (Hlen & Hall & Hsum). cbn [fst snd] in *.
    destruct (mathRandom s0) as [r s1]. unfold P. cbn [fst snd].
    split; [rewrite length_app; cbn [length]; lia |].
    split; [| rewrite sum_snoc; lia].
    apply Forall_app. split; [exact Hall |].
    constructor; [| constructor]. apply hammingDistance_range.
  - destruct HP as (Hlen & Hall & Hsum). cbn [fst snd HashTester.avg HashTester.bits] in *.
    split; [exact Hlen |]. split; [exact Hall |].
    split; [rewrite Hsum; reflexivity | apply fdiv_None].
Qed.

(** X12 (collision): [collision] counts repeated digests.  Over the
    [iterations] inputs it draws, the count it returns and the number of
    distinct digests add up to [iterations]; it returns 0 exactly when the
    digests of the drawn inputs are pairwise distinct.  An input drawn
    twice counts as a collision. *)
Theorem collision_counts_repeats (R : Runtime) (this : HashTester.t)
    (hexEncode : list byte -> list Z) (iterations : nat) (g : rng) :
  let r := fst (HashTester.collision this hexEncode iterations g) in
  let hashes :=
    map (fun x => HashTester.hashFn this x (HashTester.testingKey this))
        (HarnessSpec.hexDraws hexEncode iterations g) in
  HashTester.iterations r = iterations /\
  (HashTester.collisions r + size (list_to_set hashes : gset (list Z))
   = iterations)%nat /\
  (HashTester.collisions r = 0%nat <-> NoDup hashes).
Proof.
  cbn zeta. unfold HashTester.collision. cbn zeta.
  pose proof (collision_loop this hexEncode iterations 0 ∅ 0 g) as Hloop.
  cbn zeta in Hloop.
  destruct (for_loop _ 0%nat iterations (∅, 0%nat, g)) as [[seen c] g'].
  destruct Hloop as [-> Hc].
  cbn [fst HashTester.collisions HashTester.iterations].
  rewrite size_empty, union_empty_l_L in Hc.
  split; [reflexivity |]. split; [lia |].
  rewrite <- size_list_to_set_NoDup, length_map, hexDraws_length. lia.
Qed.

(** X13 (diffusion): [diffusion] returns a number that is not finite
    (NaN or an infinity) exactly when the trial count [flips] is 0 or the
    digest of the input decodes to no byte at all; in every other case it
    returns a finite number, whatever the hash function. *)
Theorem diffusion_not_finite_iff (R : Runtime) (this : HashTester.t)
    (input : list Z) (flips : nat) :
  HashTester.diffusion this input flips = None <->
  flips = 0%nat \/
  hexDecode (HashTester.hashFn this input (HashTester.testingKey this)) = [].
Proof.
  unfold HashTester.diffusion. cbn zeta.
  set (original := HashTester.hashFn this input (HashTester.testingKey this)).
  generalize (for_loop
    (fun i totalDiffBits =>
       totalDiffBits
       + HashTester.bitDiff original
           (HashTester.hashFn this
              (HashTester.flipBit input (JS.rem i (length input * 8)))
              (HashTester.testingKey this))) 0 flips 0).
  intros total.
  destruct (HashTester.fdiv (inject_Z total) (inject_Z (Z.of_nat flips))) as [q |] eqn:E1.
  - cbn [mbind option_bind]. rewrite fdiv_None.
    assert (Hf : flips <> 0%nat) by (intros E; apply (fdiv_None (inject_Z total)) in E; congruence).
    destruct (hexDecode original) as [| b l]; cbn [length].
    + split; [right; reflexivity | reflexivity].
    + split; [lia | intros [E | E]; [contradiction | discriminate]].
  - cbn [mbind option_bind]. apply fdiv_None in E1.
    split; [left; exact E1 | reflexivity].
Qed.

(** X14 (preimage): a larger budget never changes a success.  If the
    search with [n] attempts finds a candidate, the search with any
    budget [m >= n] from the same generator state returns the same
    candidate and number of tries, leaves the generator in the same state
    and has hashed the same inputs. *)
Theorem preimage_budget_monotone (R : Runtime) (this : HashTester.t)
    (output : list Z) (inputLength n m : nat) (g g' : rng)
    (c : list Z) (tries : nat) (hashed : list (list Z)) :
  HashTester.preimage this output inputLength n g
    = (HashTester.Found c tries, g', hashed) ->
  (n <= m)%nat ->
  HashTester.preimage this output inputLength m g
    = (HashTester.Found c tries, g', hashed).
Proof.
  unfold HashTester.preimage. intros E Hle.
  destruct (HashTester.preimage_loop this output inputLength 0 n g [])
    as [[[r |] g1] h1] eqn:Eloop; cbn [default from_option] in E; [| discriminate E].
  rewrite (preimage_loop_mono this output inputLength n m 0 g [] r g1 h1 Eloop Hle).
  exact E.
Qed.

(** X14 on the harness over [sea256]: the second candidate drawn, ["i"],
    is a preimage of its own digest. *)
Lemma preimage_budget_monotone_witness :
  let output := AsciiNode.sea256_hex [105] (HashTester.testingKey AsciiNode.tester) in
  @HashTester.preimage AsciiNode.runtime AsciiNode.tester output 1 2 104%nat
    = (HashTester.Found [105] 2, 106%nat, [[105]; [104]]) /\
  (2 <= 5)%nat /\
  @HashTester.preimage AsciiNode.runtime AsciiNode.tester output 1 5 104%nat
    = (HashTester.Found [105] 2, 106%nat, [[105]; [104]]).
Proof.
  cbn zeta.
  assert (E : @HashTester.preimage AsciiNode.runtime AsciiNode.tester
                (AsciiNode.sea256_hex [105] (HashTester.testingKey AsciiNode.tester))
                1 2 104%nat
              = (HashTester.Found [105] 2, 106%nat, [[105]; [104]]))
    by (vm_compute; reflexivity).
  assert (Hle : (2 <= 5)%nat) by lia.
  split; [exact E |]. split; [exact Hle |].
  exact (preimage_budget_monotone AsciiNode.runtime AsciiNode.tester _ 1 2 5
           104%nat 106%nat [105] 2%nat [[105]; [104]] E Hle).
Defined.

(** X15 (diffusion, flipBit): on the empty input [diffusion] flips
    nothing.  Every trial asks for the bit at position [i % 0], which is
    NaN, so [flipBit] only re-encodes the input and the hash function sees
    the empty string again: the sum of differing bits is 0 and, for a
    positive trial count and a digest of at least one byte, the result
    is 0. *)
Theorem diffusion_empty_input (R : Runtime) (this : HashTester.t) (flips : nat) :
  utf8Decode (utf8Encode []) = [] ->
  (forall q : Q, (q == 0)%Q -> (roundDouble q == 0)%Q) ->
  (0 < flips)%nat ->
  hexDecode (HashTester.hashFn this [] (HashTester.testingKey this)) <> [] ->
  exists q : Q, HashTester.diffusion this [] flips = Some q /\ (q == 0)%Q.
Proof.
  intros Hrt Hround Hflips Hdigest.
  unfold HashTester.diffusion. cbn zeta.
  set (original := HashTester.hashFn this [] (HashTester.testingKey this)).
  assert (Eloop :
    for_loop
      (fun i totalDiffBits =>
         totalDiffBits
         + HashTester.bitDiff original
             (HashTester.hashFn this
                (HashTester.flipBit [] (JS.rem i (length (@nil Z) * 8)))
                (HashTester.testingKey this))) 0 flips 0 = 0).
  { pose (P := fun (_ : nat) (acc : Z) => acc = 0).
    apply (for_loop_inv P); [reflexivity |].
    intros j a _ ->. unfold P.
    change (JS.rem j (length (@nil Z) * 8)) with (@None nat).
    unfold HashTester.flipBit. cbn zeta. rewrite Hrt. fold original.
    unfold HashTester.bitDiff. cbn zeta.
    destruct (distance_to_self (hexDecode original)) as [E _]. lia. }
  rewrite Eloop.
  unfold HashTester.fdiv at 2.
  rewrite Qeq_bool_inject_pos by lia. cbn [mbind option_bind].
  unfold HashTester.fdiv.
  destruct (hexDecode original) as [| b l] eqn:El; [contradiction |].
  rewrite Qeq_bool_inject_pos by (cbn [length]; lia).
  eexists. split; [reflexivity |].
  apply Hround.
  assert (E0 : (roundDouble (inject_Z 0 / inject_Z (Z.of_nat flips)) == 0)%Q).
  { apply Hround. unfold Qdiv. apply Qmult_0_l. }
  rewrite E0. unfold Qdiv. apply Qmult_0_l.
Qed.

(** X15 on the harness over [sea256], three trials. *)
Lemma diffusion_empty_input_witness :
  exists q : Q,
    @HashTester.diffusion AsciiNode.runtime AsciiNode.tester [] 3 = Some q /\ (q == 0)%Q.
Proof.
  apply (diffusion_empty_input AsciiNode.runtime AsciiNode.tester 3).
  - reflexivity.
  - intros q Hq. exact Hq.
  - lia.
  - vm_compute. discriminate.
Defined.
